(** * go-timescheduler: the bucket wheel of [schedule], embedded and verified

    The Go package [schedule] keeps a slice of contiguous time windows
    ([TimespanBucket]) and slides it forward on every public call
    ([Scheduler.update]).  This file embeds that package function by function
    and states the properties of the wheel over the embedding.

    Modelling choices.
    - [time.Time] and [time.Duration] are integers (nanoseconds) in [Z];
      [After], [Before] and [Add] are Go's [Time.After], [Time.Before] and
      [Time.Add].  A product of two [time.Duration]s is an [int64] product
      and wraps ([Mul]); [Time.Add] does not wrap.
    - [time.Now()] is a read of a clock.  The code reads the clock ad hoc,
      several times inside one call, so a computation receives a clock
      [clk : nat -> Z] (the value of the n-th read made by the process) and
      threads the number of reads made so far.
    - A run-time panic (index or slice bound out of range) is [None].
    - A Go [int] that only counts loop iterations or positions of a [range]
      loop is a [nat]; an [int] on which the code subtracts is a [Z].
    - [Schedulable] is an interface with two methods; it is a type class.
      [DueTime] is taken to be a function of the item.
    - The mutexes and the unused [ctx] field carry no data and are left out:
      every public method holds the scheduler mutex from entry to exit, so
      calls are sequential. *)

From Stdlib Require Import ZArith String Lia.
From stdpp Require Import base numbers option list.

Local Open Scope Z_scope.

(** ** Time *)

Module GoTime.

Abbreviation Time := Z (only parsing).
Abbreviation Duration := Z (only parsing).

(** [t.After(u)]: t is later than u. *)
Definition After (t u : Time) : bool := u <? t.

(** [t.Before(u)]: t is earlier than u. *)
Definition Before (t u : Time) : bool := t <? u.

(** [t.Add(d)]. *)
Definition Add (t : Time) (d : Duration) : Time := t + d.

(** The integer that an [int64] holds after a computation whose exact result
    is [z]: two's complement wrap-around. *)
Definition wrap64 (z : Z) : Z :=
  (z + 9223372036854775808) mod 18446744073709551616 - 9223372036854775808.

(** [z] is in the range of an [int64]. *)
Definition fits64 (z : Z) : Prop :=
  -9223372036854775808 <= z <= 9223372036854775807.

(** [a * b] on [time.Duration], an [int64]. *)
Definition Mul (a b : Duration) : Duration := wrap64 (a * b).

End GoTime.
Import GoTime.

(** ** Computations that read the clock and may panic *)

Definition Clock : Type := nat -> Z.

Definition M (A : Type) : Type := Clock -> nat -> option (A * nat).

Definition ret {A} (a : A) : M A := fun _ n => Some (a, n).

Definition bind {A B} (m : M A) (k : A -> M B) : M B :=
  fun clk n => match m clk n with
               | Some (a, n') => k a clk n'
               | None => None
               end.

Definition panic {A} : M A := fun _ _ => None.

Notation "x <~ m ; k" := (bind m (fun x => k))
  (at level 20, m at level 100, k at level 200, only parsing).
Notation "' p <~ m ; k" := (bind m (fun x => match x with p => k end))
  (at level 20, p pattern, m at level 100, k at level 200, only parsing).

(** [time.Now()]: the next reading of the clock. *)
Definition time_Now : M Time := fun clk n => Some (clk n, S n).

(** [l[i]] for a position of a [range] loop or a constant. *)
Definition index {A} (l : list A) (i : nat) : M A :=
  match l !! i with
  | Some a => ret a
  | None => panic
  end.

(** [l[i]] for a computed [int]: a negative index panics as well. *)
Definition indexZ {A} (l : list A) (i : Z) : M A :=
  if i <? 0 then panic else index l (Z.to_nat i).

(** [l[i:]]: panics when [i] exceeds the length. *)
Definition sliceFrom {A} (l : list A) (i : nat) : M (list A) :=
  if (length l <? i)%nat then panic else ret (drop i l).

(** [append(l[:i], l[i+1:]...)]: the second slice expression panics unless
    [i+1 <= len(l)], the first one when [i] is negative. *)
Definition removeAt {A} (l : list A) (i : Z) : M (list A) :=
  if (i <? 0) || (Z.of_nat (length l) <? i + 1) then panic
  else ret (take (Z.to_nat i) l ++ drop (S (Z.to_nat i)) l).

(** The clock that shows [t] at every read. *)
Definition frozen (t : Time) : Clock := fun _ => t.

(** The clock that shows [t0] for the first [k] reads and [t1] afterwards. *)
Definition stepClock (k : nat) (t0 t1 : Time) : Clock :=
  fun n => if (n <? k)%nat then t0 else t1.

(** A clock that advances by one nanosecond at every read. *)
Definition tickingClock : Clock := fun n => Z.of_nat n.

Definition monotone (clk : Clock) : Prop :=
  forall n m : nat, (n <= m)%nat -> clk n <= clk m.

(** ** The package [schedule] *)

Class Schedulable (T : Type) : Type := {
  DueTime : T -> Time;
  Id : T -> string
}.

Section Schedule.

Context {T : Type} `{Schedulable T}.

Record TimespanBucket : Type := mkBucket {
  startTime : Time;
  endTime : Time;
  elements : list T
}.

Definition NewTimespanBucket (startTime endTime : Time) : TimespanBucket :=
  {| startTime := startTime; endTime := endTime; elements := [] |}.

Definition Contains (t : TimespanBucket) (i : Time) : bool :=
  Before (startTime t) i && After (endTime t) i.

Definition AddEntity (t : TimespanBucket) (entity : T) : TimespanBucket :=
  {| startTime := startTime t; endTime := endTime t;
     elements := elements t ++ [entity] |}.

Definition Past (t : TimespanBucket) : M bool :=
  now <~ time_Now;
  ret (After now (endTime t)).

Definition Size (t : TimespanBucket) : Z := Z.of_nat (length (elements t)).

Definition IsAfter (t : TimespanBucket) (dueTime : Time) : bool :=
  After (startTime t) dueTime.

Definition IsBefore (t : TimespanBucket) (dueTime : Time) : bool :=
  Before (endTime t) dueTime.

Record Scheduler : Type := mkScheduler {
  buckets : list TimespanBucket;
  blockSize : Duration;
  numBlocks : Z
}.

Definition setBuckets (s : Scheduler) (bs : list TimespanBucket) : Scheduler :=
  {| buckets := bs; blockSize := blockSize s; numBlocks := numBlocks s |}.

Definition setElements (t : TimespanBucket) (els : list T) : TimespanBucket :=
  {| startTime := startTime t; endTime := endTime t; elements := els |}.

(** The loop of [NewScheduler]: [iters] iterations remain, [i] is the loop
    variable.  The clock is read in every iteration. *)
Fixpoint NewScheduler_loop (iters : nat) (i : Z) (blockSize : Duration)
    (buckets : list TimespanBucket) : M (list TimespanBucket) :=
  match iters with
  | O => ret buckets
  | S iters' =>
      now <~ time_Now;
      let startTime := Add now (Mul i blockSize) in
      let endTime := Add startTime blockSize in
      NewScheduler_loop iters' (i + 1) blockSize
        (buckets ++ [NewTimespanBucket startTime endTime])
  end.

Definition NewScheduler (blockSize : Duration) (numBlocks : Z) : M Scheduler :=
  buckets <~ NewScheduler_loop (Z.to_nat numBlocks) 0 blockSize [];
  ret {| buckets := buckets; blockSize := blockSize; numBlocks := numBlocks |}.

(** First loop of [update]: the position of the first bucket that is not
    [Past].  [startIdx] is only assigned before the [break], so it keeps its
    initial value 0 when the loop runs off the end of the slice. *)
Fixpoint update_scan (idx : nat) (bs : list TimespanBucket) : M nat :=
  match bs with
  | [] => ret 0%nat
  | bucket :: rest =>
      past <~ Past bucket;
      if negb past then ret idx else update_scan (S idx) rest
  end.

(** Second loop of [update], for [i] from its current value, [iters]
    iterations: tests the size of bucket [i], appends the elements of
    bucket 0. *)
Fixpoint update_salvage (iters : nat) (i : nat) (bs : list TimespanBucket)
    (overdueItems : list T) : M (list T) :=
  match iters with
  | O => ret overdueItems
  | S iters' =>
      bi <~ index bs i;
      if 0 <? Size bi then
        b0 <~ index bs 0%nat;
        update_salvage iters' (S i) bs (overdueItems ++ elements b0)
      else update_salvage iters' (S i) bs overdueItems
  end.

(** Third loop of [update]: [iters] new buckets after [currentEndTime]. *)
Fixpoint update_fresh (iters : nat) (blockSize : Duration)
    (currentEndTime : Time) (newBuckets : list TimespanBucket)
    : list TimespanBucket :=
  match iters with
  | O => newBuckets
  | S iters' =>
      update_fresh iters' blockSize (Add currentEndTime blockSize)
        (newBuckets ++
           [NewTimespanBucket currentEndTime (Add currentEndTime blockSize)])
  end.

Definition update (s : Scheduler) : M Scheduler :=
  startIdx <~ update_scan 0 (buckets s);
  overdueItems <~ update_salvage startIdx 0 (buckets s) [];
  bs1 <~ sliceFrom (buckets s) startIdx;
  tail <~ indexZ bs1 (Z.of_nat (length bs1) - 1);
  (* [for j := 0; j <= startIdx; j++]: startIdx + 1 iterations *)
  let newBuckets := update_fresh (S startIdx) (blockSize s) (endTime tail) [] in
  let bs2 := bs1 ++ newBuckets in
  head <~ index bs2 0%nat;
  ret (setBuckets s
         (<[0%nat := setElements head (elements head ++ overdueItems)]> bs2)).

(** The [range] loop of [AddReminder]: the first bucket that [Contains] the
    due time receives the entity; no bucket does when none contains it. *)
Fixpoint AddReminder_place (entity : T) (bs : list TimespanBucket)
    : list TimespanBucket :=
  match bs with
  | [] => []
  | bucket :: rest =>
      if Contains bucket (DueTime entity)
      then AddEntity bucket entity :: rest
      else bucket :: AddReminder_place entity rest
  end.

Definition AddReminder (entity : T) (s : Scheduler) : M Scheduler :=
  s <~ update s;
  head <~ index (buckets s) 0%nat;
  if IsAfter head (DueTime entity) then
    ret (setBuckets s (<[0%nat := AddEntity head entity]> (buckets s)))
  else
    let lastIdx := Z.of_nat (length (buckets s)) - 1 in
    tail <~ indexZ (buckets s) lastIdx;
    if IsBefore tail (DueTime entity) then
      ret (setBuckets s
             (<[Z.to_nat lastIdx := AddEntity tail entity]> (buckets s)))
    else
      ret (setBuckets s (AddReminder_place entity (buckets s))).

(** First loop of [Due]: position [i], the clock is read for every entity. *)
Fixpoint Due_collect (i : nat) (els : list T) (dueItems : list T)
    (removeIdxs : list nat) : M (list T * list nat) :=
  match els with
  | [] => ret (dueItems, removeIdxs)
  | entity :: rest =>
      now <~ time_Now;
      if Before (DueTime entity) now
      then Due_collect (S i) rest (dueItems ++ [entity]) (removeIdxs ++ [i])
      else Due_collect (S i) rest dueItems removeIdxs
  end.

(** Second loop of [Due]: [i] removals were made so far. *)
Fixpoint Due_remove (i : nat) (removeIdxs : list nat) (els : list T)
    : M (list T) :=
  match removeIdxs with
  | [] => ret els
  | idx :: rest =>
      let realIdx := Z.of_nat idx - Z.of_nat i in
      els' <~ removeAt els realIdx;
      Due_remove (S i) rest els'
  end.

Definition Due (s : Scheduler) : M (list T * Scheduler) :=
  s <~ update s;
  bucket <~ index (buckets s) 0%nat;
  '(dueItems, removeIdxs) <~ Due_collect 0 (elements bucket) [] [];
  els <~ Due_remove 0 removeIdxs (elements bucket);
  ret (dueItems, setBuckets s (<[0%nat := setElements bucket els]> (buckets s))).

(** What [Dump] prints for one bucket: its bounds, its size and the ids of
    its elements. *)
Definition describe (t : TimespanBucket) : Time * Time * Z * list string :=
  (startTime t, endTime t, Size t, Id <$> elements t).

Definition Dump (s : Scheduler)
    : M (list (Time * Time * Z * list string) * Scheduler) :=
  s <~ update s;
  ret (describe <$> buckets s, s).

(** ** Vocabulary of the specification *)

(** The bounds of a window. *)
Definition span (t : TimespanBucket) : Time * Time := (startTime t, endTime t).

(** Consecutive windows share their boundary. *)
Definition contiguous (bs : list TimespanBucket) : Prop :=
  forall (i : nat) (a b : TimespanBucket),
    bs !! i = Some a -> bs !! S i = Some b -> endTime a = startTime b.

(** [bs] is a chain of windows that starts at [t]: the recursive reading of
    [contiguous]. *)
Fixpoint chain (t : Time) (bs : list TimespanBucket) : Prop :=
  match bs with
  | [] => True
  | b :: rest => startTime b = t /\ chain (endTime b) rest
  end.

(** Where a chain that starts at [t] ends. *)
Fixpoint chainEnd (t : Time) (bs : list TimespanBucket) : Time :=
  match bs with
  | [] => t
  | b :: rest => chainEnd (endTime b) rest
  end.

(** A window that is not empty as an interval. *)
Definition proper (b : TimespanBucket) : Prop := startTime b < endTime b.

(** The state of a wheel in use: a positive block size and a non-empty
    sequence of contiguous, proper windows. *)
Definition wheel_ok (s : Scheduler) : Prop :=
  0 < blockSize s /\ buckets s <> [] /\
  contiguous (buckets s) /\ Forall proper (buckets s).

(** [bs] is a sequence of proper windows in ascending order, none starting
    before [t] or before the end of its predecessor: contiguity without the
    promise that there is no gap. *)
Fixpoint ascending (t : Time) (bs : list TimespanBucket) : Prop :=
  match bs with
  | [] => True
  | b :: rest =>
      t <= startTime b /\ startTime b < endTime b /\ ascending (endTime b) rest
  end.

(** The state of a wheel whose windows may have gaps between them. *)
Definition wheel_ascending (s : Scheduler) : Prop :=
  0 < blockSize s /\
  exists h rest, buckets s = h :: rest /\ ascending (startTime h) (buckets s).

(** None of the products [j * blockSize] that the loop of [NewScheduler]
    computes for [numBlocks] blocks leaves the range of an [int64]. *)
Definition noOverflow (blockSize : Duration) (numBlocks : Z) : Prop :=
  forall j, 0 <= j < numBlocks -> fits64 (j * blockSize).

(** [t] is a bound of one of the windows. *)
Definition onBoundary (bs : list TimespanBucket) (t : Time) : Prop :=
  exists (i : nat) (b : TimespanBucket),
    bs !! i = Some b /\ (t = startTime b \/ t = endTime b).

(** The windows [bs] with [entity] appended to the collection of window [i]
    and nothing else changed. *)
Definition placedIn (i : nat) (entity : T) (bs : list TimespanBucket)
    : list TimespanBucket :=
  alter (fun b => AddEntity b entity) i bs.

(** The position of the last window. *)
Definition lastIdx (bs : list TimespanBucket) : nat := pred (length bs).

(** A public call, as a transition of the scheduler. *)
Inductive Op : Type :=
  | OpAddReminder (entity : T)
  | OpDue
  | OpDump.

Definition perform (op : Op) (s : Scheduler) : M Scheduler :=
  match op with
  | OpAddReminder entity => AddReminder entity s
  | OpDue => r <~ Due s; ret (snd r)
  | OpDump => r <~ Dump s; ret (snd r)
  end.

(** A sequence of public calls, one after the other. *)
Fixpoint performAll (ops : list Op) (s : Scheduler) : M Scheduler :=
  match ops with
  | [] => ret s
  | op :: rest => s' <~ perform op s; performAll rest s'
  end.

End Schedule.

Arguments TimespanBucket T : clear implicits.
Arguments Scheduler T : clear implicits.
Arguments Op T : clear implicits.

(** The windows that the third loop of [update] creates, as a list. *)
Fixpoint freshFrom {T : Type} (iters : nat) (blockSize : Duration) (t : Time)
    : list (TimespanBucket T) :=
  match iters with
  | O => []
  | S iters' =>
      NewTimespanBucket t (Add t blockSize)
        :: freshFrom iters' blockSize (Add t blockSize)
  end.

(** The positions, counted from [i], of the elements of [els] that are due
    before [now]: what the first loop of [Due] records in [removeIdxs] when
    the clock shows [now] throughout. *)
Fixpoint dueIdxs {T : Type} `{Schedulable T} (now : Time) (i : nat)
    (els : list T) : list nat :=
  match els with
  | [] => []
  | entity :: rest =>
      if Before (DueTime entity) now
      then i :: dueIdxs now (S i) rest
      else dueIdxs now (S i) rest
  end.

(** ** Vocabulary for the re-anchor and the due query under a moving clock *)

(** The values shown by [len] consecutive reads of the clock, the first of
    them being read number [n]. *)
Definition readings (clk : Clock) (n len : nat) : list Time :=
  clk <$> seq n len.

(** For every entity and the reading taken for it, whether the first loop of
    [Due] finds the entity due. *)
Definition dueMask {T : Type} `{Schedulable T} (els : list T)
    (rs : list Time) : list bool :=
  zip_with (fun entity now => Before (DueTime entity) now) els rs.

(** The positions, counted from [i], that a mask flags. *)
Fixpoint maskIdxs (i : nat) (mask : list bool) : list nat :=
  match mask with
  | [] => []
  | m :: mask' =>
      if m then i :: maskIdxs (S i) mask' else maskIdxs (S i) mask'
  end.

(** The elements whose flag in the mask is [flag], in order. *)
Fixpoint pick {A : Type} (flag : bool) (mask : list bool) (els : list A)
    : list A :=
  match mask, els with
  | m :: mask', e :: els' =>
      if Bool.eqb m flag then e :: pick flag mask' els'
      else pick flag mask' els'
  | _, _ => []
  end.

(** How many of the windows hold at least one element: the test of the
    salvage loop of [update]. *)
Fixpoint occupied {T : Type} (bs : list (TimespanBucket T)) : nat :=
  match bs with
  | [] => 0%nat
  | b :: rest =>
      if 0 <? Size b then S (occupied rest) else occupied rest
  end.

(** A window that is exactly one block wide. *)
Definition blockWide {T : Type} (bsz : Duration) (b : TimespanBucket T)
    : Prop :=
  endTime b = startTime b + bsz.

(** Every element held by the wheel, window after window. *)
Definition allItems {T : Type} (s : Scheduler T) : list T :=
  concat (elements <$> buckets s).

(** The entities that a sequence of public calls adds. *)
Fixpoint added {T : Type} (ops : list (Op T)) : list T :=
  match ops with
  | [] => []
  | OpAddReminder entity :: rest => entity :: added rest
  | _ :: rest => added rest
  end.

(** ** A concrete item type for the executable examples *)

Record Reminder : Type := mkReminder { rid : string; rdue : Time }.

#[export] Instance Reminder_Schedulable : Schedulable Reminder :=
  {| DueTime := rdue; Id := rid |}.

(** Runs a computation from the first read of the clock. *)
Definition run {A} (m : M A) (clk : Clock) : option A :=
  fst <$> m clk 0%nat.

(** ** Scenarios

    Sequences of public calls on a wheel of [Reminder]s; each is run with a
    clock that fixes when every call happens. *)

Definition itemA : Reminder := mkReminder "A" 3.
Definition itemB : Reminder := mkReminder "B" 1.
Definition itemC : Reminder := mkReminder "C" 10.

(** The collections of the windows, head first. *)
Definition contents (s : Scheduler Reminder) : list (list Reminder) :=
  elements <$> buckets s.

(** The bounds of the windows, head first. *)
Definition spans (s : Scheduler Reminder) : list (Time * Time) :=
  span <$> buckets s.

(** Three windows of two nanoseconds. *)
Definition newWheel : M (Scheduler Reminder) := NewScheduler 2 3.

(** The wheel that [newWheel] builds when the clock shows 0 throughout. *)
Definition wheel0 : Scheduler Reminder :=
  {| buckets := [NewTimespanBucket 0 2; NewTimespanBucket 2 4;
                 NewTimespanBucket 4 6];
     blockSize := 2; numBlocks := 3 |}.

(** A and B are added, then the wheel is inspected; the result is the wheel
    before and after the inspection. *)
Definition salvageScenario : M (Scheduler Reminder * Scheduler Reminder) :=
  s0 <~ newWheel;
  s1 <~ AddReminder itemA s0;
  s2 <~ AddReminder itemB s1;
  '(_, s3) <~ Dump s2;
  ret (s2, s3).

(** The wheel is built and inspected once. *)
Definition lengthScenario : M (Z * nat) :=
  s0 <~ newWheel;
  '(_, s1) <~ Dump s0;
  ret (numBlocks s1, length (buckets s1)).

(** The wheel is built and re-anchored once, then once more. *)
Definition reanchorScenario : M (Scheduler Reminder * Scheduler Reminder) :=
  s0 <~ newWheel;
  s1 <~ update s0;
  s2 <~ update s1;
  ret (s1, s2).

(** The wheel is built and re-anchored. *)
Definition headScenario : M (Scheduler Reminder) :=
  s0 <~ newWheel;
  update s0.

(** Three windows of ten nanoseconds; C is added, then the due items are
    asked for. *)
Definition dueScenario : M (list Reminder * Scheduler Reminder) :=
  s0 <~ NewScheduler 10 3;
  s1 <~ AddReminder itemC s0;
  Due s1.

(** Two windows of ten nanoseconds are built, then G, due at 12, is added. *)
Definition itemG : Reminder := mkReminder "G" 12.

Definition gapScenario : M (Scheduler Reminder) :=
  s0 <~ NewScheduler 10 2;
  AddReminder itemG s0.

(** Construction with no window, then an inspection. *)
Definition emptyScenario : M (Scheduler Reminder) :=
  s0 <~ NewScheduler 2 0;
  '(_, s1) <~ Dump s0;
  ret s1.

(** A wheel whose head window [5, 25) holds items due at 8, 9 and 15. *)
Definition dueWheel : Scheduler Reminder :=
  {| buckets :=
       [ {| startTime := 5; endTime := 25;
            elements := [mkReminder "t-2" 8; mkReminder "t-1" 9;
                         mkReminder "t+5" 15] |};
         NewTimespanBucket 25 45; NewTimespanBucket 45 65 ];
     blockSize := 20; numBlocks := 3 |}.

(** ** Inputs for the further properties *)

(** A wheel of two-nanosecond windows with B in the head window [0, 2) and
    A in the window [2, 4). *)
Definition busyWheel : Scheduler Reminder :=
  {| buckets :=
       [ {| startTime := 0; endTime := 2; elements := [itemB] |};
         {| startTime := 2; endTime := 4; elements := [itemA] |};
         NewTimespanBucket 4 6 ];
     blockSize := 2; numBlocks := 3 |}.

(** A clock that shows [t0] at the first read and one nanosecond more at
    every further read. *)
Definition risingClock (t0 : Time) : Clock := fun n => t0 + Z.of_nat n.

(** A wheel whose head window [5, 25) holds two items, both due at 9. *)
Definition twinWheel : Scheduler Reminder :=
  {| buckets :=
       [ {| startTime := 5; endTime := 25;
            elements := [mkReminder "first" 9; mkReminder "second" 9] |};
         NewTimespanBucket 25 45 ];
     blockSize := 20; numBlocks := 2 |}.

(** Four public calls. *)
Definition someCalls : list (Op Reminder) :=
  [OpAddReminder itemA; OpDue; OpDump; OpAddReminder itemB].

(** * Proofs *)

(** ** The monad *)

Lemma bind_Some {A B} (m : M A) (k : A -> M B) clk n r :
  bind m k clk n = Some r <->
  exists a n', m clk n = Some (a, n') /\ k a clk n' = Some r.
Proof.
  unfold bind. split.
  - destruct (m clk n) as [[a n']|]; [eauto | discriminate].
  - intros (a & n' & -> & Hk). exact Hk.
Qed.

Lemma bind_eq {A B} (m : M A) (k : A -> M B) clk n a n' :
  m clk n = Some (a, n') -> bind m k clk n = k a clk n'.
Proof. unfold bind. intros ->. reflexivity. Qed.

Lemma Mul_fits a b : fits64 (a * b) -> Mul a b = a * b.
Proof.
  unfold Mul, wrap64, fits64. intros Hfit.
  rewrite Z.mod_small by lia. lia.
Qed.

Lemma index_Some {A} (l : list A) i a clk n :
  l !! i = Some a -> index l i clk n = Some (a, n).
Proof. unfold index. intros ->. reflexivity. Qed.

Lemma indexZ_last {A} (l : list A) a clk n :
  last l = Some a -> indexZ l (Z.of_nat (length l) - 1) clk n = Some (a, n).
Proof.
  intros Hl. unfold indexZ.
  assert (length l <> 0%nat) by (destruct l; [discriminate | simpl; lia]).
  destruct (Z.ltb_spec (Z.of_nat (length l) - 1) 0); [lia|].
  apply index_Some. rewrite last_lookup in Hl.
  replace (Z.to_nat (Z.of_nat (length l) - 1)) with (pred (length l)) by lia.
  exact Hl.
Qed.

Section Proofs.

Context {T : Type} `{Schedulable T}.

Implicit Types (b h : TimespanBucket T) (bs rest : list (TimespanBucket T)).
Implicit Types (s : Scheduler T) (clk : Clock) (n k idx : nat).

(** ** The first loop of [update] *)

Lemma Past_eq b clk n : Past b clk n = Some (After (clk n) (endTime b), S n).
Proof. reflexivity. Qed.

Lemma update_scan_spec clk bs idx n :
  (exists k b,
      bs !! k = Some b /\ After (clk (n + k)%nat) (endTime b) = false /\
      (forall j b', (j < k)%nat -> bs !! j = Some b' ->
                    After (clk (n + j)%nat) (endTime b') = true) /\
      update_scan idx bs clk n = Some ((idx + k)%nat, (n + S k)%nat))
  \/ ((forall j b', bs !! j = Some b' ->
                    After (clk (n + j)%nat) (endTime b') = true) /\
      update_scan idx bs clk n = Some (0%nat, (n + length bs)%nat)).
Proof.
  revert idx n. induction bs as [|b bs IH]; intros idx n.
  - right. split; [intros j b' Hj; discriminate|].
    simpl. unfold ret. do 2 f_equal. lia.
  - simpl update_scan. rewrite (bind_eq _ _ _ _ _ _ (Past_eq b clk n)).
    cbv beta. destruct (After (clk n) (endTime b)) eqn:Hp; unfold negb; cbv iota.
    + destruct (IH (S idx) (S n)) as [(k & b' & Hk & Hlive & Hbefore & Hscan)|[Hall Hscan]].
      * left. exists (S k), b'. split; [exact Hk|]. split.
        { replace (n + S k)%nat with (S n + k)%nat by lia. exact Hlive. }
        split.
        { intros [|j] b'' Hj Hb''.
          - simpl in Hb''. injection Hb'' as <-.
            replace (n + 0)%nat with n by lia. exact Hp.
          - replace (n + S j)%nat with (S n + j)%nat by lia.
            apply Hbefore; [lia | exact Hb'']. }
        rewrite Hscan. do 2 f_equal; lia.
      * right. split.
        { intros [|j] b'' Hb''.
          - simpl in Hb''. injection Hb'' as <-.
            replace (n + 0)%nat with n by lia. exact Hp.
          - replace (n + S j)%nat with (S n + j)%nat by lia.
            apply Hall. exact Hb''. }
        rewrite Hscan. simpl length. do 2 f_equal; lia.
    + left. exists 0%nat, b. split; [reflexivity|]. split.
      { replace (n + 0)%nat with n by lia. exact Hp. }
      split; [intros j b' Hj; lia|].
      unfold ret. do 2 f_equal; lia.
Qed.

(** ** The other loops of [update] *)

Lemma update_salvage_total clk bs iters i acc n :
  (i + iters <= length bs)%nat ->
  exists ov, update_salvage iters i bs acc clk n = Some (ov, n).
Proof.
  revert i acc. induction iters as [|iters IH]; intros i acc Hlen.
  - exists acc. reflexivity.
  - destruct (lookup_lt_is_Some_2 bs i) as [bi Hbi]; [lia|].
    destruct (lookup_lt_is_Some_2 bs 0%nat) as [b0 Hb0]; [lia|].
    simpl update_salvage.
    rewrite (bind_eq _ _ _ _ _ _ (index_Some _ _ _ clk n Hbi)).
    destruct (0 <? Size bi).
    + rewrite (bind_eq _ _ _ _ _ _ (index_Some _ _ _ clk n Hb0)).
      apply IH. lia.
    + apply IH. lia.
Qed.

(** Whatever the elapsed windows hold, the salvage list is made of copies of
    the collection of the old head window, one for every non-empty window
    among those tested. *)
Lemma update_salvage_copies_head clk bs b0 iters i acc n :
  bs !! 0%nat = Some b0 -> (i + iters <= length bs)%nat ->
  exists m, (m <= iters)%nat /\
    update_salvage iters i bs acc clk n =
    Some (acc ++ concat (replicate m (elements b0)), n).
Proof.
  intros Hb0. revert i acc. induction iters as [|iters IH]; intros i acc Hlen.
  - exists 0%nat. split; [lia|]. simpl. rewrite app_nil_r. reflexivity.
  - destruct (lookup_lt_is_Some_2 bs i) as [bi Hbi]; [lia|].
    simpl update_salvage.
    rewrite (bind_eq _ _ _ _ _ _ (index_Some _ _ _ clk n Hbi)).
    destruct (0 <? Size bi).
    + rewrite (bind_eq _ _ _ _ _ _ (index_Some _ _ _ clk n Hb0)).
      destruct (IH (S i) (acc ++ elements b0)) as (m & Hm & Heq); [lia|].
      exists (S m). split; [lia|]. rewrite Heq, <- app_assoc. reflexivity.
    + destruct (IH (S i) acc) as (m & Hm & Heq); [lia|].
      exists m. split; [lia | exact Heq].
Qed.

Lemma update_fresh_eq iters bsz t acc :
  update_fresh iters bsz t acc = acc ++ freshFrom (T:=T) iters bsz t.
Proof.
  revert t acc. induction iters as [|iters IH]; intros t acc; simpl.
  - symmetry. apply app_nil_r.
  - rewrite IH, <- app_assoc. reflexivity.
Qed.

Lemma length_freshFrom iters bsz t :
  length (freshFrom (T:=T) iters bsz t) = iters.
Proof.
  revert t. induction iters as [|iters IH]; intros t; simpl; [|rewrite IH];
    reflexivity.
Qed.

Lemma last_drop_lookup bs k b :
  bs !! k = Some b -> last (drop k bs) = last bs.
Proof.
  intros Hk. rewrite <- (take_drop k bs) at 2. rewrite last_app.
  destruct (last (drop k bs)) eqn:Hl; [reflexivity|].
  apply last_None in Hl. rewrite (drop_S _ _ _ Hk) in Hl. discriminate.
Qed.

(** [update] panics on an empty slice of buckets: [len(s.buckets)-1] is -1. *)
Lemma update_nil clk s n : buckets s = [] -> update s clk n = None.
Proof.
  intros Hnil. unfold update. rewrite Hnil. reflexivity.
Qed.

(** The shape of the result of [update] on a non-empty slice: [k] buckets are
    dropped from the front, [S k] fresh ones are appended after the old tail
    [tl], and the salvage list [ov] goes to the elements of the new head. *)
Lemma update_shape clk s n :
  buckets s <> [] ->
  exists k n' h rest tl ov,
    update_scan 0 (buckets s) clk n = Some (k, n') /\
    drop k (buckets s) = h :: rest /\
    last (buckets s) = Some tl /\
    update s clk n =
      Some (setBuckets s
              (setElements h (elements h ++ ov)
                 :: rest ++ freshFrom (S k) (blockSize s) (endTime tl)),
            n').
Proof.
  intros Hne.
  assert (exists k n' h rest,
             update_scan 0 (buckets s) clk n = Some (k, n') /\
             drop k (buckets s) = h :: rest /\
             last (drop k (buckets s)) = last (buckets s))
    as (k & n' & h & rest & Hscan & Hdrop & Hlast).
  { destruct (update_scan_spec clk (buckets s) 0 n)
      as [(k & b & Hk & _ & _ & Hscan)|[_ Hscan]].
    - exists k, (n + S k)%nat, b, (drop (S k) (buckets s)).
      split; [exact Hscan|]. split; [apply drop_S; exact Hk|].
      eapply last_drop_lookup; exact Hk.
    - destruct (buckets s) as [|b0 rest0] eqn:Hbs; [congruence|].
      exists 0%nat, (n + length (b0 :: rest0))%nat, b0, rest0.
      split; [exact Hscan|]. split; reflexivity. }
  destruct (last (buckets s)) as [tl|] eqn:Htl;
    [|apply last_None in Htl; congruence].
  assert (k <= length (buckets s))%nat as Hk.
  { destruct (Nat.le_gt_cases k (length (buckets s))) as [Hle|Hgt]; [exact Hle|].
    rewrite drop_ge in Hdrop by lia. discriminate. }
  assert (k < length (buckets s))%nat as Hklt.
  { apply (f_equal length) in Hdrop. rewrite length_drop in Hdrop.
    simpl in Hdrop. lia. }
  destruct (update_salvage_total clk (buckets s) k 0 [] n') as [ov Hov]; [lia|].
  exists k, n', h, rest, tl, ov.
  split; [exact Hscan|]. split; [exact Hdrop|]. split; [reflexivity|].
  unfold update.
  rewrite (bind_eq _ _ _ _ _ _ Hscan), (bind_eq _ _ _ _ _ _ Hov).
  assert (sliceFrom (buckets s) k clk n' = Some (h :: rest, n')) as Hslice.
  { unfold sliceFrom. destruct (Nat.ltb_spec (length (buckets s)) k); [lia|].
    rewrite Hdrop. reflexivity. }
  rewrite (bind_eq _ _ _ _ _ _ Hslice).
  rewrite Hdrop in Hlast.
  rewrite (bind_eq _ _ _ _ _ _ (indexZ_last _ _ clk n' Hlast)).
  rewrite update_fresh_eq. reflexivity.
Qed.

(** Every call of [update] makes the slice one bucket longer. *)
Lemma update_length clk s n s' n' :
  update s clk n = Some (s', n') ->
  length (buckets s') = S (length (buckets s)).
Proof.
  intros Hup. destruct (buckets s) as [|b0 rest0] eqn:Hbs.
  - rewrite update_nil in Hup by exact Hbs. discriminate.
  - destruct (update_shape clk s n) as (k & n1 & h & rest & tl & ov & _ & Hdrop & _ & Heq);
      [congruence|].
    rewrite Heq in Hup. injection Hup as <- <-.
    apply (f_equal length) in Hdrop. rewrite length_drop, Hbs in Hdrop.
    simpl in Hdrop. unfold setBuckets. cbn [buckets].
    rewrite length_cons, length_app, length_cons, length_freshFrom.
    simpl. lia.
Qed.

(** ** Chains of windows *)

Lemma chain_app t bs1 bs2 :
  chain t (bs1 ++ bs2) <-> chain t bs1 /\ chain (chainEnd t bs1) bs2.
Proof.
  revert t. induction bs1 as [|b bs1 IH]; intros t; simpl.
  - tauto.
  - rewrite IH. tauto.
Qed.

Lemma chainEnd_last t bs tl : last bs = Some tl -> chainEnd t bs = endTime tl.
Proof.
  revert t. induction bs as [|b bs IH]; intros t Hl; [discriminate|].
  destruct bs as [|b' bs].
  - injection Hl as ->. reflexivity.
  - change (chainEnd (endTime b) (b' :: bs) = endTime tl). apply IH. exact Hl.
Qed.

Lemma chain_freshFrom iters bsz t : chain t (freshFrom (T:=T) iters bsz t).
Proof.
  revert t. induction iters as [|iters IH]; intros t; simpl; [trivial|].
  split; [reflexivity | apply IH].
Qed.

Lemma proper_freshFrom iters bsz t :
  0 < bsz -> Forall proper (freshFrom (T:=T) iters bsz t).
Proof.
  intros Hpos. revert t. induction iters as [|iters IH]; intros t; simpl;
    constructor; [|apply IH].
  unfold proper, Add. simpl. lia.
Qed.

Lemma contiguous_cons b bs :
  contiguous (b :: bs) <-> chain (endTime b) bs.
Proof.
  revert b. induction bs as [|b' bs IH]; intros b.
  - split; [intros _; exact I|]. intros _ i x y Hx Hy. destruct i; discriminate.
  - simpl chain. rewrite <- IH. split.
    + intros Hc. split.
      * symmetry. apply (Hc 0%nat b b'); reflexivity.
      * intros i x y Hx Hy. apply (Hc (S i) x y); assumption.
    + intros [Hb Hc] [|i] x y Hx Hy.
      * simpl in Hx, Hy. congruence.
      * apply (Hc i x y); assumption.
Qed.

(** The index reading and the recursive reading of contiguity agree. *)
Lemma contiguous_chain b bs :
  contiguous (b :: bs) <-> chain (startTime b) (b :: bs).
Proof. rewrite contiguous_cons. simpl. tauto. Qed.

Lemma chain_drop t bs k h rest :
  chain t bs -> drop k bs = h :: rest -> chain (startTime h) (h :: rest).
Proof.
  revert t bs. induction k as [|k IH]; intros t bs Hc Hd.
  - rewrite drop_0 in Hd. subst bs. simpl in *. tauto.
  - destruct bs as [|b bs]; [discriminate|]. simpl in Hd.
    destruct Hc as [_ Hc]. eapply IH; eassumption.
Qed.

(** [update] keeps the windows contiguous, whatever the clock shows. *)
Lemma update_contiguous clk s n s' n' :
  contiguous (buckets s) -> update s clk n = Some (s', n') ->
  contiguous (buckets s').
Proof.
  intros Hc Hup. destruct (buckets s) as [|b0 rest0] eqn:Hbs.
  - rewrite update_nil in Hup by exact Hbs. discriminate.
  - destruct (update_shape clk s n)
      as (k & n1 & h & rest & tl & ov & _ & Hdrop & Hlast & Heq); [congruence|].
    rewrite Heq in Hup. injection Hup as <- <-.
    unfold setBuckets. cbn [buckets].
    rewrite Hbs in Hdrop, Hlast. apply contiguous_chain in Hc.
    pose proof (chain_drop _ _ _ _ _ Hc Hdrop) as Hkept.
    assert (last (h :: rest) = Some tl) as Hl.
    { rewrite <- Hdrop. destruct (lookup_lt_is_Some_2 (b0 :: rest0) k) as [x Hx].
      - apply (f_equal length) in Hdrop. rewrite length_drop in Hdrop.
        simpl in Hdrop |- *. lia.
      - rewrite (last_drop_lookup _ _ _ Hx). exact Hlast. }
    apply contiguous_cons. cbn [endTime setElements].
    destruct Hkept as [_ Hkept]. apply chain_app. split; [exact Hkept|].
    change (chainEnd (endTime h) rest) with (chainEnd (startTime h) (h :: rest)).
    rewrite (chainEnd_last _ _ _ Hl). apply (chain_freshFrom (S k)).
Qed.

Lemma Forall_drop_cons (P : TimespanBucket T -> Prop) bs k h rest :
  Forall P bs -> drop k bs = h :: rest -> P h /\ Forall P rest.
Proof.
  intros HP Hd. apply (Forall_drop _ k) in HP. rewrite Hd in HP.
  apply Forall_cons in HP. exact HP.
Qed.

(** On a wheel in use [update] does not panic and leaves a wheel in use. *)
Lemma update_wheel_ok clk s n :
  wheel_ok s -> exists s' n', update s clk n = Some (s', n') /\ wheel_ok s'.
Proof.
  intros (Hpos & Hne & Hc & Hp).
  destruct (update_shape clk s n Hne)
    as (k & n1 & h & rest & tl & ov & _ & Hdrop & Hlast & Heq).
  eexists _, _. split; [exact Heq|].
  split; [exact Hpos|]. split; [discriminate|]. split.
  - eapply update_contiguous; [exact Hc | exact Heq].
  - unfold setBuckets. cbn [buckets].
    destruct (Forall_drop_cons _ _ _ _ _ Hp Hdrop) as [Hh Hrest].
    constructor; [exact Hh|]. apply Forall_app. split; [exact Hrest|].
    apply (proper_freshFrom (S k)). exact Hpos.
Qed.

(** ** Elapsed windows *)

(** C8 (amended).  For every window and every reading of the clock, [Past]
    returns true if and only if the current time is strictly after the end of
    the window; when the current time equals the end it returns false. *)
Theorem Past_iff_strictly_after b clk n :
  exists r, Past b clk n = Some (r, S n) /\ (r = true <-> endTime b < clk n).
Proof.
  exists (After (clk n) (endTime b)). split; [reflexivity|].
  unfold After. apply Z.ltb_lt.
Qed.

(** C10.  Every window that [update] drops from the front of the slice was
    found elapsed by [Past] when the scan of this [update] read the clock for
    it (and, the clock being monotone, is elapsed at every later reading); a
    window that the scan would find not elapsed stays in the wheel, [k]
    positions nearer to the head.  The windows of the result are the old ones
    without the first [k], followed by the fresh ones. *)
Theorem update_drops_only_Past clk s n s' n' :
  update s clk n = Some (s', n') ->
  exists k tl,
    last (buckets s) = Some tl /\
    span <$> buckets s' =
      span <$> (drop k (buckets s)
                  ++ freshFrom (S k) (blockSize s) (endTime tl)) /\
    (forall i b, (i < k)%nat -> buckets s !! i = Some b ->
                 Past b clk (n + i)%nat = Some (true, S (n + i))) /\
    (monotone clk ->
     forall i b m, (i < k)%nat -> buckets s !! i = Some b -> (n + i <= m)%nat ->
                   Past b clk m = Some (true, S m)) /\
    (forall i b, buckets s !! i = Some b ->
                 Past b clk (n + i)%nat = Some (false, S (n + i)) ->
                 (k <= i)%nat /\
                 (span <$> buckets s') !! (i - k)%nat = Some (span b)).
Proof.
  intros Hup. destruct (buckets s) as [|b0 rest0] eqn:Hbs.
  { rewrite update_nil in Hup by exact Hbs. discriminate. }
  destruct (update_shape clk s n)
    as (k & n1 & h & rest & tl & ov & Hscan & Hdrop & Hlast & Heq); [congruence|].
  rewrite Heq in Hup.
  assert (s' = setBuckets s
                 (setElements h (elements h ++ ov)
                    :: rest ++ freshFrom (S k) (blockSize s) (endTime tl)))
    as -> by congruence.
  clear Hup Heq. rewrite <- Hbs.
  assert (forall i b, (i < k)%nat -> buckets s !! i = Some b ->
                      After (clk (n + i)%nat) (endTime b) = true) as Hpast.
  { destruct (update_scan_spec clk (buckets s) 0 n)
      as [(k' & b' & _ & _ & Hbefore & Hscan')|[_ Hscan']];
      rewrite Hscan' in Hscan; injection Hscan as <- _.
    - exact Hbefore.
    - intros i b Hi. lia. }
  assert (span <$> buckets (setBuckets s
                 (setElements h (elements h ++ ov)
                    :: rest ++ freshFrom (S k) (blockSize s) (endTime tl))) =
          span <$> (drop k (buckets s)
                      ++ freshFrom (S k) (blockSize s) (endTime tl))) as Hspans.
  { rewrite Hdrop. reflexivity. }
  exists k, tl. split; [exact Hlast|]. split; [exact Hspans|].
  split; [|split].
  - intros i b Hi Hb. rewrite Past_eq, (Hpast i b Hi Hb). reflexivity.
  - intros Hmono i b m Hi Hb Hm. rewrite Past_eq.
    pose proof (Hpast i b Hi Hb) as Hp. unfold After in Hp |- *.
    apply Z.ltb_lt in Hp. specialize (Hmono _ _ Hm).
    destruct (Z.ltb_spec (endTime b) (clk m)); [reflexivity | lia].
  - intros i b Hb Hlive. rewrite Past_eq in Hlive.
    assert (k <= i)%nat as Hki.
    { destruct (Nat.le_gt_cases k i) as [Hle|Hgt]; [exact Hle|].
      rewrite (Hpast i b Hgt Hb) in Hlive. discriminate. }
    split; [exact Hki|].
    rewrite Hspans, list_lookup_fmap, lookup_app_l.
    + rewrite lookup_drop. replace (k + (i - k))%nat with i by lia.
      rewrite Hb. reflexivity.
    + rewrite length_drop. apply lookup_lt_Some in Hb. lia.
Qed.

(** C5 (amended).  If some window is not elapsed when the scan of [update]
    reads the clock for it, then [update] returns and the head window of the
    result is not elapsed in the sense of [Past] at the last reading of the
    clock that [update] made: that reading is at or before the end of the
    head window (it may be equal to it). *)
Theorem update_head_not_Past clk s n :
  (exists i b, buckets s !! i = Some b /\
               Past b clk (n + i)%nat = Some (false, S (n + i))) ->
  exists s' k h rest,
    update s clk n = Some (s', S (n + k)) /\
    buckets s' = h :: rest /\
    Past h clk (n + k)%nat = Some (false, S (n + k)) /\
    clk (n + k)%nat <= endTime h.
Proof.
  intros (i & b & Hb & Hlive). rewrite Past_eq in Hlive.
  assert (After (clk (n + i)%nat) (endTime b) = false) as Hi by congruence.
  assert (buckets s <> []) as Hne by (intros Hnil; rewrite Hnil in Hb; discriminate).
  destruct (update_shape clk s n Hne)
    as (k & n1 & h & rest & tl & ov & Hscan & Hdrop & _ & Heq).
  destruct (update_scan_spec clk (buckets s) 0 n)
    as [(k' & b' & Hk' & Hlive' & _ & Hscan')|[Hall _]].
  - rewrite Hscan' in Hscan. injection Hscan as <- <-.
    rewrite (drop_S _ _ _ Hk') in Hdrop. injection Hdrop as <- <-.
    eexists _, k', _, _. split.
    { rewrite Heq. do 2 f_equal. lia. }
    split; [reflexivity|]. cbn [Nat.add] in Hlive'.
    split.
    + rewrite Past_eq. cbn [endTime setElements]. rewrite Hlive'. reflexivity.
    + cbn [endTime setElements]. unfold After in Hlive'.
      apply Z.ltb_ge in Hlive'. exact Hlive'.
  - rewrite (Hall i b Hb) in Hi. discriminate.
Qed.

(** ** Construction *)

Lemma NewScheduler_loop_frozen iters i bsz acc t n :
  (forall j, i <= j < i + Z.of_nat iters -> fits64 (j * bsz)) ->
  NewScheduler_loop (T:=T) iters i bsz acc (frozen t) n =
  Some (acc ++ freshFrom iters bsz (t + i * bsz), (n + iters)%nat).
Proof.
  revert i acc n. induction iters as [|iters IH]; intros i acc n Hfit.
  - simpl. unfold ret. rewrite app_nil_r. do 2 f_equal. lia.
  - simpl NewScheduler_loop.
    rewrite (bind_eq _ _ _ _ _ _
               (eq_refl : time_Now (frozen t) n = Some (frozen t n, S n))).
    cbv beta zeta. rewrite (Mul_fits i bsz) by (apply Hfit; lia).
    rewrite IH by (intros j Hj; apply Hfit; lia).
    rewrite <- app_assoc. unfold frozen, Add. simpl.
    replace (t + (i + 1) * bsz) with (t + i * bsz + bsz) by lia.
    do 2 f_equal. lia.
Qed.

(** With a clock that does not move during the call, [NewScheduler] builds
    the windows [now, now + blockSize), [now + blockSize, ...), ... *)
Lemma NewScheduler_frozen bsz nb t n :
  noOverflow bsz nb ->
  NewScheduler (T:=T) bsz nb (frozen t) n =
  Some ({| buckets := freshFrom (Z.to_nat nb) bsz t;
           blockSize := bsz; numBlocks := nb |}, (n + Z.to_nat nb)%nat).
Proof.
  intros Hfit. unfold NewScheduler.
  rewrite (bind_eq _ _ _ _ _ _
             (NewScheduler_loop_frozen (Z.to_nat nb) 0 bsz [] t n
                ltac:(intros j Hj; apply Hfit; lia))).
  unfold ret. cbn [app]. replace (t + 0 * bsz) with t by lia. reflexivity.
Qed.

Lemma NewScheduler_frozen_wheel_ok bsz nb t n :
  0 < bsz -> 0 < nb -> noOverflow bsz nb ->
  exists s n', NewScheduler (T:=T) bsz nb (frozen t) n = Some (s, n') /\
               wheel_ok s /\ Z.of_nat (length (buckets s)) = nb.
Proof.
  intros Hb Hn Hfit. eexists _, _.
  split; [apply NewScheduler_frozen; exact Hfit|].
  split; [|cbn [buckets]; rewrite length_freshFrom; lia].
  unfold wheel_ok. cbn [buckets blockSize]. split; [exact Hb|].
  destruct (Z.to_nat nb) as [|m] eqn:Hm; [lia|].
  split; [discriminate|]. split; [|apply proper_freshFrom; exact Hb].
  change (freshFrom (T:=T) (S m) bsz t) with
    (NewTimespanBucket (T:=T) t (Add t bsz) :: freshFrom m bsz (Add t bsz)).
  apply contiguous_cons. apply chain_freshFrom.
Qed.

(** C9 (amended).  Construction with [numBlocks <= 0] does not fail: it
    returns a scheduler whose slice of buckets is empty, without reading the
    clock.  The invalid configuration surfaces in the next public call:
    [AddReminder], [Due] and [Dump] all panic in their [update]. *)
Theorem NewScheduler_nonpositive clk bsz nb n (Hnb : nb <= 0) :
  let s := {| buckets := []; blockSize := bsz; numBlocks := nb |} in
  NewScheduler (T:=T) bsz nb clk n = Some (s, n) /\
  forall clk' m entity,
    AddReminder entity s clk' m = None /\ Due s clk' m = None /\
    Dump s clk' m = None.
Proof.
  split.
  - unfold NewScheduler. replace (Z.to_nat nb) with 0%nat by lia. reflexivity.
  - intros clk' m entity. repeat split; reflexivity.
Qed.

(** ** Ascending windows *)

Lemma ascending_head t h rest :
  ascending t (h :: rest) -> ascending (startTime h) (h :: rest).
Proof. simpl. intros (_ & Hp & Hrest). split; [lia|]. split; assumption. Qed.

Lemma chain_ascending t bs : chain t bs -> Forall proper bs -> ascending t bs.
Proof.
  revert t. induction bs as [|a bs IH]; intros t Hc Hp; simpl; [trivial|].
  destruct Hc as [Ha Hc]. apply Forall_cons in Hp as [Hpa Hp].
  split; [lia|]. split; [exact Hpa|]. apply IH; assumption.
Qed.

Lemma chainEnd_app t bs1 bs2 :
  chainEnd t (bs1 ++ bs2) = chainEnd (chainEnd t bs1) bs2.
Proof.
  revert t. induction bs1 as [|a bs1 IH]; intros t; simpl; [reflexivity|].
  apply IH.
Qed.

Lemma ascending_app t bs1 bs2 :
  ascending t (bs1 ++ bs2) <->
  ascending t bs1 /\ ascending (chainEnd t bs1) bs2.
Proof.
  revert t. induction bs1 as [|a bs1 IH]; intros t; simpl.
  - tauto.
  - rewrite IH. tauto.
Qed.

Lemma ascending_drop t bs k h rest :
  ascending t bs -> drop k bs = h :: rest ->
  ascending (startTime h) (h :: rest).
Proof.
  revert t bs. induction k as [|k IH]; intros t bs Ha Hd.
  - rewrite drop_0 in Hd. subst bs. eapply ascending_head. exact Ha.
  - destruct bs as [|b bs]; [discriminate|]. simpl in Hd.
    destruct Ha as (_ & _ & Ha). eapply IH; eassumption.
Qed.

Lemma ascending_chainEnd t bs : ascending t bs -> t <= chainEnd t bs.
Proof.
  revert t. induction bs as [|a bs IH]; intros t; simpl; [lia|].
  intros (Hlo & Hp & Hrest). specialize (IH _ Hrest). lia.
Qed.

Lemma ascending_bounds t bs j b :
  ascending t bs -> bs !! j = Some b ->
  t <= startTime b /\ startTime b < endTime b /\ endTime b <= chainEnd t bs.
Proof.
  revert t j. induction bs as [|a bs IH]; intros t j Ha Hj; [discriminate|].
  destruct Ha as (Hlo & Hp & Hrest). destruct j as [|j].
  - injection Hj as <-. pose proof (ascending_chainEnd _ _ Hrest).
    simpl. lia.
  - simpl in Hj. destruct (IH _ _ Hrest Hj) as (H1 & H2 & H3). simpl. lia.
Qed.

(** An earlier window ends before a later one starts. *)
Lemma ascending_lt t bs i j a b :
  ascending t bs -> (i < j)%nat -> bs !! i = Some a -> bs !! j = Some b ->
  endTime a <= startTime b.
Proof.
  revert t i j. induction bs as [|c bs IH]; intros t i j Ha Hij Hi Hj;
    [discriminate|].
  destruct Ha as (_ & _ & Hrest). destruct j as [|j]; [lia|]. simpl in Hj.
  destruct i as [|i].
  - injection Hi as <-. apply (ascending_bounds _ _ _ _ Hrest Hj).
  - simpl in Hi. apply (IH _ i j Hrest); [lia | assumption | assumption].
Qed.

Lemma wheel_ok_ascending s : wheel_ok s -> wheel_ascending s.
Proof.
  intros (Hpos & Hne & Hc & Hp). split; [exact Hpos|].
  destruct (buckets s) as [|h rest]; [congruence|].
  exists h, rest. split; [reflexivity|].
  apply chain_ascending; [apply contiguous_chain; exact Hc | exact Hp].
Qed.

Lemma last_drop_cons bs k h rest tl :
  drop k bs = h :: rest -> last bs = Some tl -> last (h :: rest) = Some tl.
Proof.
  intros Hd Hl. rewrite <- Hd.
  destruct (lookup_lt_is_Some_2 bs k) as [x Hx].
  - apply (f_equal length) in Hd. rewrite length_drop in Hd. simpl in Hd. lia.
  - rewrite (last_drop_lookup _ _ _ Hx). exact Hl.
Qed.

(** On a wheel with ascending windows [update] does not panic and leaves the
    windows ascending. *)
Lemma update_wheel_ascending clk s n :
  wheel_ascending s ->
  exists s' n', update s clk n = Some (s', n') /\ wheel_ascending s'.
Proof.
  intros (Hpos & h0 & rest0 & Hbs & Ha).
  destruct (update_shape clk s n)
    as (k & n1 & h & rest & tl & ov & _ & Hdrop & Hlast & Heq);
    [rewrite Hbs; discriminate|].
  eexists _, _. split; [exact Heq|]. split; [exact Hpos|].
  eexists _, _. split; [reflexivity|].
  pose proof (ascending_drop _ _ _ _ _ Ha Hdrop) as (_ & Hp & Hrest).
  pose proof (last_drop_cons _ _ _ _ _ Hdrop Hlast) as Hl.
  unfold setBuckets. cbn [buckets ascending startTime endTime setElements].
  split; [lia|]. split; [exact Hp|].
  apply ascending_app. split; [exact Hrest|].
  change (chainEnd (endTime h) rest) with (chainEnd (startTime h) (h :: rest)).
  rewrite (chainEnd_last _ _ _ Hl).
  apply chain_ascending;
    [apply (chain_freshFrom (S k)) | apply (proper_freshFrom (S k)); exact Hpos].
Qed.

Lemma NewScheduler_loop_ascending clk iters i bsz acc n t0 :
  monotone clk -> 0 < bsz ->
  (forall j, i <= j < i + Z.of_nat iters -> fits64 (j * bsz)) ->
  ascending t0 acc -> chainEnd t0 acc <= clk n + i * bsz ->
  exists res,
    NewScheduler_loop (T:=T) iters i bsz acc clk n = Some (res, (n + iters)%nat)
    /\ ascending t0 res /\ length res = (length acc + iters)%nat.
Proof.
  intros Hmono Hpos. revert i acc n.
  induction iters as [|iters IH]; intros i acc n Hfit Ha Hend.
  - exists acc. simpl. unfold ret. split; [do 2 f_equal; lia|].
    split; [exact Ha | lia].
  - simpl NewScheduler_loop.
    rewrite (bind_eq _ _ _ _ _ _
               (eq_refl : time_Now clk n = Some (clk n, S n))).
    cbv beta zeta. rewrite (Mul_fits i bsz) by (apply Hfit; lia). unfold Add.
    destruct (IH (i + 1)
                (acc ++ [NewTimespanBucket (clk n + i * bsz)
                                           (clk n + i * bsz + bsz)]) (S n))
      as (res & Hres & Hasc & Hlen).
    + intros j Hj. apply Hfit. lia.
    + apply ascending_app. split; [exact Ha|]. simpl. lia.
    + rewrite chainEnd_app. simpl. pose proof (Hmono n (S n)). lia.
    + exists res. split; [rewrite Hres; do 2 f_equal; lia|].
      split; [exact Hasc|]. rewrite Hlen, length_app. simpl. lia.
Qed.

(** Whatever a monotone clock shows during the call, [NewScheduler] with a
    positive block size and a positive number of blocks builds ascending
    windows, provided no product of the loop overflows. *)
Lemma NewScheduler_wheel_ascending clk bsz nb n :
  monotone clk -> 0 < bsz -> 0 < nb -> noOverflow bsz nb ->
  exists s n', NewScheduler (T:=T) bsz nb clk n = Some (s, n') /\
               wheel_ascending s.
Proof.
  intros Hmono Hb Hn Hfit.
  destruct (NewScheduler_loop_ascending clk (Z.to_nat nb) 0 bsz [] n
              (clk n + 0 * bsz) Hmono Hb
              ltac:(intros j Hj; apply Hfit; lia) I)
    as (res & Hres & Hasc & Hlen); [simpl; lia|].
  unfold NewScheduler. rewrite (bind_eq _ _ _ _ _ _ Hres).
  eexists _, _. split; [reflexivity|]. split; [exact Hb|].
  cbn [buckets]. destruct res as [|h rest]; [simpl in Hlen; lia|].
  exists h, rest. split; [reflexivity|]. eapply ascending_head. exact Hasc.
Qed.

(** ** Placement of a reminder *)

Lemma Contains_iff b (d : Time) :
  Contains b d = true <-> startTime b < d /\ d < endTime b.
Proof.
  unfold Contains, Before, After. rewrite andb_true_iff, !Z.ltb_lt. tauto.
Qed.

Lemma Contains_false b (d : Time) :
  d <= startTime b \/ endTime b <= d -> Contains b d = false.
Proof.
  intros Hd. destruct (Contains b d) eqn:Hc; [|reflexivity].
  apply Contains_iff in Hc. lia.
Qed.

Lemma AddReminder_place_none entity bs :
  (forall j b, bs !! j = Some b -> Contains b (DueTime entity) = false) ->
  AddReminder_place entity bs = bs.
Proof.
  induction bs as [|a bs IH]; intros Hnone; [reflexivity|].
  simpl. rewrite (Hnone 0%nat a eq_refl). f_equal. apply IH.
  intros j b Hj. apply (Hnone (S j)). exact Hj.
Qed.

(** Among ascending windows at most one contains the due time, and the
    [range] loop of [AddReminder] finds it. *)
Lemma AddReminder_place_ascending entity t bs :
  ascending t bs ->
  (exists i b,
      bs !! i = Some b /\ Contains b (DueTime entity) = true /\
      (forall j b', bs !! j = Some b' -> Contains b' (DueTime entity) = true ->
                    j = i) /\
      AddReminder_place entity bs = placedIn i entity bs)
  \/ ((forall j b, bs !! j = Some b -> Contains b (DueTime entity) = false) /\
      AddReminder_place entity bs = bs).
Proof.
  revert t. induction bs as [|a bs IH]; intros t Ha.
  { right. split; [intros j b Hj; discriminate | reflexivity]. }
  destruct Ha as (_ & Hp & Hrest).
  destruct (Contains a (DueTime entity)) eqn:Hin.
  - left. exists 0%nat, a. split; [reflexivity|]. split; [exact Hin|]. split.
    + intros [|j] b Hj Hb; [reflexivity|]. simpl in Hj.
      apply Contains_iff in Hin, Hb.
      pose proof (ascending_bounds _ _ _ _ Hrest Hj). lia.
    + simpl. rewrite Hin. reflexivity.
  - destruct (IH _ Hrest)
      as [(i & b & Hi & Hb & Huniq & Hplace)|[Hnone Hplace]].
    + left. exists (S i), b. split; [exact Hi|]. split; [exact Hb|]. split.
      * intros [|j] b' Hj Hb'.
        { injection Hj as <-. congruence. }
        f_equal. apply (Huniq j b' Hj Hb').
      * simpl. rewrite Hin, Hplace. reflexivity.
    + right. split.
      * intros [|j] b Hj; [injection Hj as <-; exact Hin|].
        apply (Hnone j b Hj).
      * simpl. rewrite Hin, Hplace. reflexivity.
Qed.

(** No window contains a bound of an ascending sequence of windows. *)
Lemma onBoundary_not_contained t bs (d : Time) :
  ascending t bs -> onBoundary bs d ->
  forall j b, bs !! j = Some b -> Contains b d = false.
Proof.
  intros Ha (i & a & Hi & Hd) j b Hj. apply Contains_false.
  pose proof (ascending_bounds _ _ _ _ Ha Hi) as (_ & Hpa & _).
  destruct (Nat.lt_trichotomy i j) as [Hlt|[->|Hgt]].
  - pose proof (ascending_lt _ _ _ _ _ _ Ha Hlt Hi Hj). lia.
  - assert (a = b) as -> by congruence. lia.
  - pose proof (ascending_lt _ _ _ _ _ _ Ha Hgt Hj Hi). lia.
Qed.

(** In a chain of proper windows, a time between the start and the end of
    the chain that no window contains is a bound of a window. *)
Lemma chain_not_contained_onBoundary t bs (d : Time) :
  chain t bs -> Forall proper bs -> t <= d -> d <= chainEnd t bs ->
  (forall j b, bs !! j = Some b -> Contains b d = false) ->
  d = t \/ onBoundary bs d.
Proof.
  revert t. induction bs as [|a bs IH]; intros t Hc Hp Hlo Hhi Hnone.
  { left. simpl in Hhi. lia. }
  destruct Hc as [Ha Hc]. apply Forall_cons in Hp as [Hpa Hp].
  destruct (Z.eq_dec d t) as [Heq|Hne]; [left; exact Heq|]. right.
  destruct (Z.lt_trichotomy d (endTime a)) as [Hlt|[Heq|Hgt]].
  - pose proof (Hnone 0%nat a eq_refl) as Hout.
    assert (Contains a d = true) by (apply Contains_iff; lia). congruence.
  - exists 0%nat, a. split; [reflexivity | right; exact Heq].
  - destruct (IH (endTime a) Hc Hp) as [Heq|(i & b & Hi & Hb)];
      [lia | exact Hhi | intros j b Hj; apply (Hnone (S j) b Hj) | lia |].
    exists (S i), b. split; [exact Hi | exact Hb].
Qed.

Lemma insert_last_placedIn entity bs tl :
  last bs = Some tl ->
  <[Z.to_nat (Z.of_nat (length bs) - 1) := AddEntity tl entity]> bs =
  placedIn (lastIdx bs) entity bs.
Proof.
  intros Hl. unfold placedIn, lastIdx.
  replace (Z.to_nat (Z.of_nat (length bs) - 1)) with (pred (length bs)) by lia.
  rewrite list_insert_alter. apply list_alter_ext; [|reflexivity].
  intros x Hx. rewrite last_lookup in Hl. congruence.
Qed.

(** X17.  On a wheel whose windows are proper and in ascending order,
    [AddReminder] re-anchors and then appends the entity to the collection
    of exactly one window, or of none: the head window when it [IsAfter] the
    due time; else the tail window when it [IsBefore] the due time; else the
    one window that [Contains] the due time; and no window at all, the
    windows being left as they were, when no window contains the due time.
    A due time that is a bound of a window always falls under the last case;
    when the windows are contiguous the last case is exactly that of a due
    time that is a bound of a window. *)
Theorem AddReminder_places_once clk s n entity :
  wheel_ascending s ->
  exists s1 n1 h rest tl s2,
    update s clk n = Some (s1, n1) /\
    buckets s1 = h :: rest /\ last (buckets s1) = Some tl /\
    AddReminder entity s clk n = Some (s2, n1) /\
    blockSize s2 = blockSize s1 /\ numBlocks s2 = numBlocks s1 /\
    let d := DueTime entity in
    let bs := buckets s1 in
    ((IsAfter h d = true /\ buckets s2 = placedIn 0 entity bs)
     \/ (IsAfter h d = false /\ IsBefore tl d = true /\
         (lastIdx bs < length bs)%nat /\
         buckets s2 = placedIn (lastIdx bs) entity bs)
     \/ (IsAfter h d = false /\ IsBefore tl d = false /\
         exists i b,
           bs !! i = Some b /\ Contains b d = true /\
           (forall j b', bs !! j = Some b' -> Contains b' d = true -> j = i) /\
           buckets s2 = placedIn i entity bs)
     \/ (IsAfter h d = false /\ IsBefore tl d = false /\
         (forall j b, bs !! j = Some b -> Contains b d = false) /\
         buckets s2 = bs /\
         (contiguous bs -> onBoundary bs d)))
    /\ (onBoundary bs d -> buckets s2 = bs).
Proof.
  intros Hok.
  destruct (update_wheel_ascending clk s n Hok)
    as (s1 & n1 & Hup & _ & h & rest & Hbs & Ha).
  rewrite Hbs in Ha.
  destruct (last (h :: rest)) as [tl|] eqn:Htl;
    [|apply last_None in Htl; discriminate].
  assert (exists s2,
    AddReminder entity s clk n = Some (s2, n1) /\
    blockSize s2 = blockSize s1 /\ numBlocks s2 = numBlocks s1 /\
    buckets s2 =
      if IsAfter h (DueTime entity) then placedIn 0 entity (h :: rest)
      else if IsBefore tl (DueTime entity)
           then placedIn (lastIdx (h :: rest)) entity (h :: rest)
           else AddReminder_place entity (h :: rest))
    as (s2 & Hadd & Hbsz & Hnb & Hres).
  { unfold AddReminder. rewrite (bind_eq _ _ _ _ _ _ Hup).
    assert (buckets s1 !! 0%nat = Some h) as Hh by (rewrite Hbs; reflexivity).
    rewrite (bind_eq _ _ _ _ _ _ (index_Some _ _ _ clk n1 Hh)).
    destruct (IsAfter h (DueTime entity)).
    - eexists. split; [reflexivity|]. repeat split. cbn [buckets setBuckets].
      rewrite Hbs. reflexivity.
    - rewrite <- Hbs in Htl.
      rewrite (bind_eq _ _ _ _ _ _ (indexZ_last _ _ clk n1 Htl)).
      destruct (IsBefore tl (DueTime entity)).
      + eexists. split; [reflexivity|]. repeat split. cbn [buckets setBuckets].
        rewrite (insert_last_placedIn _ _ _ Htl), Hbs. reflexivity.
      + eexists. split; [reflexivity|]. repeat split. cbn [buckets setBuckets].
        rewrite Hbs. reflexivity. }
  exists s1, n1, h, rest, tl, s2. rewrite Hbs.
  split; [exact Hup|]. split; [reflexivity|]. split; [exact Htl|].
  split; [exact Hadd|]. split; [exact Hbsz|]. split; [exact Hnb|].
  cbv zeta.
  assert (forall j b, (h :: rest) !! j = Some b ->
                      startTime h <= startTime b /\ endTime b <= endTime tl)
    as Hwithin.
  { intros j b Hj. pose proof (ascending_bounds _ _ _ _ Ha Hj) as (H1 & _ & H3).
    rewrite (chainEnd_last _ _ _ Htl) in H3. split; assumption. }
  split.
  - destruct (IsAfter h (DueTime entity)) eqn:Hafter.
    { left. split; [reflexivity | exact Hres]. }
    right. destruct (IsBefore tl (DueTime entity)) eqn:Hbefore.
    { left. split; [reflexivity|]. split; [reflexivity|].
      split; [unfold lastIdx; simpl; lia | exact Hres]. }
    right.
    destruct (AddReminder_place_ascending entity _ _ Ha)
      as [(i & b & Hi & Hin & Huniq & Hplace)|[Hnone Hplace]].
    + left. split; [reflexivity|]. split; [reflexivity|].
      exists i, b. split; [exact Hi|]. split; [exact Hin|].
      split; [exact Huniq|]. rewrite Hres. exact Hplace.
    + right. split; [reflexivity|]. split; [reflexivity|].
      split; [exact Hnone|]. split; [rewrite Hres; exact Hplace|].
      intros Hc. apply contiguous_chain in Hc.
      assert (Forall proper (h :: rest)) as Hp.
      { apply Forall_lookup. intros j b Hj.
        apply (ascending_bounds _ _ _ _ Ha Hj). }
      unfold IsAfter, After in Hafter. apply Z.ltb_ge in Hafter.
      unfold IsBefore, Before in Hbefore. apply Z.ltb_ge in Hbefore.
      destruct (chain_not_contained_onBoundary _ _ (DueTime entity) Hc Hp)
        as [Heq|Hb]; [exact Hafter | | exact Hnone | | exact Hb].
      * rewrite (chainEnd_last _ _ _ Htl). exact Hbefore.
      * exists 0%nat, h. split; [reflexivity | left; exact Heq].
  - intros Hbound. rewrite Hres.
    pose proof (onBoundary_not_contained _ _ _ Ha Hbound) as Hnone.
    destruct Hbound as (i & b & Hi & Hd).
    destruct (Hwithin i b Hi) as [Hlo Hhi].
    pose proof (ascending_bounds _ _ _ _ Ha Hi) as (_ & Hpb & _).
    assert (IsAfter h (DueTime entity) = false) as ->.
    { unfold IsAfter, After. apply Z.ltb_ge. lia. }
    assert (IsBefore tl (DueTime entity) = false) as ->.
    { unfold IsBefore, Before. apply Z.ltb_ge. lia. }
    apply AddReminder_place_none. exact Hnone.
Qed.

(** ** The due items *)

Lemma Before_lt (t u : Time) : Before t u = true <-> t < u.
Proof. unfold Before. apply Z.ltb_lt. Qed.

Lemma Due_collect_stable clk now i els dueItems removeIdxs n :
  (forall j, (j < length els)%nat -> clk (n + j)%nat = now) ->
  Due_collect i els dueItems removeIdxs clk n =
  Some ((dueItems ++ filter (fun e => DueTime e < now) els,
         removeIdxs ++ dueIdxs now i els), (n + length els)%nat).
Proof.
  revert i dueItems removeIdxs n.
  induction els as [|e els IH]; intros i dueItems removeIdxs n Hclk.
  - simpl. unfold ret. rewrite !app_nil_r. do 2 f_equal. lia.
  - simpl Due_collect.
    rewrite (bind_eq _ _ _ _ _ _
               (eq_refl : time_Now clk n = Some (clk n, S n))).
    cbv beta. replace (clk n) with now.
    2:{ symmetry. rewrite <- (Hclk 0%nat); [f_equal; lia | simpl; lia]. }
    assert (forall j, (j < length els)%nat -> clk (S n + j)%nat = now) as Hclk'.
    { intros j Hj. rewrite <- (Hclk (S j)); [f_equal; lia | simpl; lia]. }
    simpl dueIdxs. destruct (Before (DueTime e) now) eqn:Hdue.
    + rewrite (IH _ _ _ _ Hclk'). apply Before_lt in Hdue.
      rewrite filter_cons_True by exact Hdue.
      rewrite <- !app_assoc. simpl. do 2 f_equal. lia.
    + rewrite (IH _ _ _ _ Hclk').
      assert (~ DueTime e < now) as Hnot.
      { intros Hlt. apply Before_lt in Hlt. congruence. }
      rewrite filter_cons_False by exact Hnot.
      simpl. do 2 f_equal. lia.
Qed.

Lemma removeAt_middle (pre : list T) e post c clk n :
  removeAt (pre ++ e :: post)
    (Z.of_nat (c + length pre) - Z.of_nat c) clk n = Some (pre ++ post, n).
Proof.
  unfold removeAt.
  replace (Z.of_nat (c + length pre) - Z.of_nat c) with (Z.of_nat (length pre))
    by lia.
  rewrite length_app, length_cons.
  destruct (Z.ltb_spec (Z.of_nat (length pre)) 0); [lia|].
  destruct (Z.ltb_spec (Z.of_nat (length pre + S (length post)))
              (Z.of_nat (length pre) + 1)); [lia|].
  simpl orb. cbv iota. rewrite Nat2Z.id.
  rewrite take_app_length.
  rewrite (cons_middle e pre post), app_assoc.
  rewrite drop_app_length'; [reflexivity|].
  rewrite length_app. simpl. lia.
Qed.

(** The index-shifting removal loop of [Due] deletes exactly the recorded
    positions: what is left are the elements that are not due, in order. *)
Lemma Due_remove_dueIdxs now c (pre els : list T) clk n :
  Due_remove c (dueIdxs now (c + length pre) els) (pre ++ els) clk n =
  Some (pre ++ filter (fun e => ~ DueTime e < now) els, n).
Proof.
  revert c pre. induction els as [|e els IH]; intros c pre.
  - reflexivity.
  - simpl dueIdxs. destruct (Before (DueTime e) now) eqn:Hdue.
    + simpl Due_remove.
      rewrite (bind_eq _ _ _ _ _ _ (removeAt_middle pre e els c clk n)).
      change (S (c + length pre)) with (S c + length pre)%nat.
      rewrite IH. apply Before_lt in Hdue.
      rewrite filter_cons_False by (intros Hn; apply Hn; exact Hdue).
      reflexivity.
    + replace (S (c + length pre)) with (c + length (pre ++ [e]))%nat
        by (rewrite length_app; simpl; lia).
      rewrite (cons_middle e pre els), app_assoc, IH.
      assert (~ DueTime e < now) as Hnot.
      { intros Hlt. apply Before_lt in Hlt. congruence. }
      rewrite filter_cons_True by exact Hnot.
      rewrite <- app_assoc. reflexivity.
Qed.

(** ** Runs of public calls *)

Lemma index_inv {A} (l : list A) i a clk n n' :
  index l i clk n = Some (a, n') -> l !! i = Some a /\ n' = n.
Proof.
  unfold index. destruct (l !! i); [|discriminate].
  unfold ret. intros [= -> ->]. split; reflexivity.
Qed.

Lemma spans_insert bs i b b' :
  bs !! i = Some b -> span b' = span b ->
  span <$> <[i := b']> bs = span <$> bs.
Proof.
  intros Hi Hs. rewrite list_fmap_insert, Hs. apply list_insert_id.
  rewrite list_lookup_fmap, Hi. reflexivity.
Qed.

Lemma AddReminder_place_spans entity bs :
  span <$> AddReminder_place entity bs = span <$> bs.
Proof.
  induction bs as [|a bs IH]; simpl; [reflexivity|].
  destruct (Contains a (DueTime entity)); simpl; [reflexivity|].
  f_equal. exact IH.
Qed.

(** Every public call re-anchors first and afterwards changes nothing but the
    collections of the windows. *)
Lemma perform_after_update op s clk n s2 n2 :
  perform op s clk n = Some (s2, n2) ->
  exists s1 n1,
    update s clk n = Some (s1, n1) /\
    span <$> buckets s2 = span <$> buckets s1 /\
    blockSize s2 = blockSize s1 /\ numBlocks s2 = numBlocks s1.
Proof.
  destruct op as [entity| |]; unfold perform; intros Hrun.
  - unfold AddReminder in Hrun.
    apply bind_Some in Hrun as (s1 & n1 & Hup & Hrun).
    apply bind_Some in Hrun as (h & n1' & Hh & Hrun).
    apply index_inv in Hh as [Hh ->].
    exists s1, n1. split; [exact Hup|].
    destruct (IsAfter h (DueTime entity)).
    { injection Hrun as <- _. cbn [buckets blockSize numBlocks setBuckets].
      split; [|split; reflexivity]. eapply spans_insert; [exact Hh | reflexivity]. }
    apply bind_Some in Hrun as (tl & n1' & Htl & Hrun).
    unfold indexZ in Htl.
    destruct (Z.of_nat (length (buckets s1)) - 1 <? 0); [discriminate|].
    apply index_inv in Htl as [Htl ->].
    destruct (IsBefore tl (DueTime entity)); injection Hrun as <- _;
      cbn [buckets blockSize numBlocks setBuckets];
      (split; [|split; reflexivity]).
    + eapply spans_insert; [exact Htl | reflexivity].
    + apply AddReminder_place_spans.
  - apply bind_Some in Hrun as ([items s2'] & n2' & Hdue & Hret).
    injection Hret as <- <-. unfold Due in Hdue.
    apply bind_Some in Hdue as (s1 & n1 & Hup & Hdue).
    apply bind_Some in Hdue as (h & n1' & Hh & Hdue).
    apply index_inv in Hh as [Hh ->].
    apply bind_Some in Hdue as ([dueItems removeIdxs] & n3 & _ & Hdue).
    apply bind_Some in Hdue as (els & n4 & _ & Hdue).
    injection Hdue as _ <- _.
    exists s1, n1. split; [exact Hup|].
    cbn [snd buckets blockSize numBlocks setBuckets].
    split; [|split; reflexivity]. eapply spans_insert; [exact Hh | reflexivity].
  - apply bind_Some in Hrun as ([out s2'] & n2' & Hdump & Hret).
    injection Hret as <- <-. unfold Dump in Hdump.
    apply bind_Some in Hdump as (s1 & n1 & Hup & Hdump).
    injection Hdump as _ <- _.
    exists s1, n1. split; [exact Hup|]. repeat split.
Qed.

Lemma contiguous_spans bs1 bs2 :
  span <$> bs1 = span <$> bs2 -> contiguous bs1 -> contiguous bs2.
Proof.
  intros Heq Hc i a b Ha Hb.
  assert (forall j x, bs2 !! j = Some x ->
                      exists y, bs1 !! j = Some y /\ span y = span x) as Hback.
  { intros j x Hx. apply (f_equal (fmap span)) in Hx.
    rewrite <- list_lookup_fmap, <- Heq, list_lookup_fmap in Hx.
    destruct (bs1 !! j) as [y|]; [|discriminate].
    exists y. split; [reflexivity|]. simpl in Hx. congruence. }
  destruct (Hback _ _ Ha) as (a' & Ha' & Hsa).
  destruct (Hback _ _ Hb) as (b' & Hb' & Hsb).
  specialize (Hc i a' b' Ha' Hb'). unfold span in Hsa, Hsb. congruence.
Qed.

Lemma ascending_spans t bs1 bs2 :
  span <$> bs1 = span <$> bs2 -> ascending t bs1 -> ascending t bs2.
Proof.
  revert t bs2. induction bs1 as [|a bs1 IH]; intros t [|b bs2] Heq;
    try discriminate; [trivial|].
  injection Heq as Hs He Hrest. simpl. intros (Hlo & Hp & Ha).
  split; [lia|]. split; [lia|]. rewrite <- He. apply IH; assumption.
Qed.

(** Every public call that returns makes the slice one bucket longer, ... *)
Lemma perform_length op s clk n s' n' :
  perform op s clk n = Some (s', n') ->
  length (buckets s') = S (length (buckets s)).
Proof.
  intros Hrun.
  destruct (perform_after_update _ _ _ _ _ _ Hrun)
    as (s1 & n1 & Hup & Hspans & _).
  apply (f_equal length) in Hspans. rewrite !length_fmap in Hspans.
  rewrite Hspans. eapply update_length. exact Hup.
Qed.

(** ... keeps contiguous windows contiguous, ... *)
Lemma perform_contiguous op s clk n s' n' :
  contiguous (buckets s) -> perform op s clk n = Some (s', n') ->
  contiguous (buckets s').
Proof.
  intros Hc Hrun.
  destruct (perform_after_update _ _ _ _ _ _ Hrun)
    as (s1 & n1 & Hup & Hspans & _).
  eapply contiguous_spans; [symmetry; exact Hspans|].
  eapply update_contiguous; [exact Hc | exact Hup].
Qed.

(** ... and keeps ascending windows ascending. *)
Lemma perform_wheel_ascending op s clk n s' n' :
  wheel_ascending s -> perform op s clk n = Some (s', n') ->
  wheel_ascending s'.
Proof.
  intros Hok Hrun.
  destruct (perform_after_update _ _ _ _ _ _ Hrun)
    as (s1 & n1 & Hup & Hspans & Hbsz & _).
  destruct (update_wheel_ascending clk s n Hok)
    as (s1' & n1' & Hup' & Hpos & h & rest & Hbs & Ha).
  assert (s1' = s1) as -> by congruence.
  split; [rewrite Hbsz; exact Hpos|].
  rewrite Hbs in Hspans, Ha.
  destruct (buckets s') as [|h' rest']; [discriminate|].
  exists h', rest'. split; [reflexivity|].
  assert (startTime h' = startTime h) as -> by (injection Hspans; congruence).
  eapply ascending_spans; [symmetry; exact Hspans | exact Ha].
Qed.

(** After [m] public calls the wheel has [m] windows more than before. *)
Lemma performAll_length ops s clk n s' n' :
  performAll ops s clk n = Some (s', n') ->
  length (buckets s') = (length (buckets s) + length ops)%nat.
Proof.
  revert s n. induction ops as [|op ops IH]; intros s n Hrun.
  - injection Hrun as <- _. simpl. lia.
  - simpl in Hrun. apply bind_Some in Hrun as (s1 & n1 & Hop & Hrun).
    rewrite (IH _ _ Hrun), (perform_length _ _ _ _ _ _ Hop). simpl. lia.
Qed.

(** Contiguity is an invariant of every run of public calls. *)
Lemma performAll_contiguous ops s clk n s' n' :
  contiguous (buckets s) -> performAll ops s clk n = Some (s', n') ->
  contiguous (buckets s').
Proof.
  revert s n. induction ops as [|op ops IH]; intros s n Hc Hrun.
  - injection Hrun as <- _. exact Hc.
  - simpl in Hrun. apply bind_Some in Hrun as (s1 & n1 & Hop & Hrun).
    eapply IH; [|exact Hrun]. eapply perform_contiguous; eassumption.
Qed.

(** So is the ascending order of the windows. *)
Lemma performAll_wheel_ascending ops s clk n s' n' :
  wheel_ascending s -> performAll ops s clk n = Some (s', n') ->
  wheel_ascending s'.
Proof.
  revert s n. induction ops as [|op ops IH]; intros s n Hok Hrun.
  - injection Hrun as <- _. exact Hok.
  - simpl in Hrun. apply bind_Some in Hrun as (s1 & n1 & Hop & Hrun).
    eapply IH; [|exact Hrun]. eapply perform_wheel_ascending; eassumption.
Qed.

(** * Further properties of the package *)

(** ** Construction under any clock *)

Lemma NewScheduler_loop_any clk iters i bsz acc n :
  NewScheduler_loop (T:=T) iters i bsz acc clk n =
  Some (acc ++
          ((fun j : nat =>
              NewTimespanBucket
                (clk (n + j)%nat + Mul (i + Z.of_nat j) bsz)
                (clk (n + j)%nat + Mul (i + Z.of_nat j) bsz + bsz))
             <$> seq 0 iters),
        (n + iters)%nat).
Proof.
  revert i acc n. induction iters as [|iters IH]; intros i acc n.
  - simpl. unfold ret. rewrite app_nil_r. do 2 f_equal. lia.
  - simpl NewScheduler_loop.
    rewrite (bind_eq _ _ _ _ _ _
               (eq_refl : time_Now clk n = Some (clk n, S n))).
    cbv beta zeta. rewrite IH, <- app_assoc. unfold Add.
    f_equal. f_equal; [|lia]. f_equal.
    change (seq 0 (S iters)) with (0%nat :: seq 1 iters).
    rewrite <- fmap_S_seq, fmap_cons, <- list_fmap_compose.
    cbn [app]. f_equal.
    + replace (n + 0)%nat with n by lia.
      replace (i + Z.of_nat 0) with i by lia. reflexivity.
    + apply list_fmap_ext. intros _ j _. unfold compose.
      replace (S n + j)%nat with (n + S j)%nat by lia.
      replace (i + 1 + Z.of_nat j) with (i + Z.of_nat (S j)) by lia.
      reflexivity.
Qed.

(** [NewScheduler] under any clock, as one equation. *)
Lemma NewScheduler_any clk bsz nb n :
  NewScheduler (T:=T) bsz nb clk n =
  Some ({| buckets :=
             (fun j : nat =>
                NewTimespanBucket
                  (clk (n + j)%nat + Mul (Z.of_nat j) bsz)
                  (clk (n + j)%nat + Mul (Z.of_nat j) bsz + bsz))
               <$> seq 0 (Z.to_nat nb);
           blockSize := bsz; numBlocks := nb |},
        (n + Z.to_nat nb)%nat).
Proof.
  unfold NewScheduler.
  rewrite (bind_eq _ _ _ _ _ _ (NewScheduler_loop_any clk _ 0 bsz [] n)).
  unfold ret. cbn [app]. reflexivity.
Qed.

Lemma NewScheduler_length clk bsz nb n s n' :
  NewScheduler (T:=T) bsz nb clk n = Some (s, n') ->
  length (buckets s) = Z.to_nat nb /\ blockSize s = bsz.
Proof.
  rewrite NewScheduler_any. intros [= <- _]. cbn [buckets blockSize].
  rewrite length_fmap, length_seq. split; reflexivity.
Qed.

(** X1.  Under any clock [NewScheduler] returns, after one read of the clock
    per block: [numBlocks] windows (none for a negative count), each empty,
    window [j] starting at the [j]-th reading plus the [int64] product of
    [j] and the block size, which wraps when it overflows, and ending one
    block size later; the block size and the count are stored as given.
    When the product does not overflow, window [j] starts [j] block sizes
    after the [j]-th reading. *)
Theorem NewScheduler_windows clk bsz nb n :
  exists s,
    NewScheduler (T:=T) bsz nb clk n = Some (s, (n + Z.to_nat nb)%nat) /\
    blockSize s = bsz /\ numBlocks s = nb /\
    length (buckets s) = Z.to_nat nb /\
    forall j, (j < Z.to_nat nb)%nat ->
      buckets s !! j =
      Some (NewTimespanBucket
              (clk (n + j)%nat + wrap64 (Z.of_nat j * bsz))
              (clk (n + j)%nat + wrap64 (Z.of_nat j * bsz) + bsz)) /\
      (fits64 (Z.of_nat j * bsz) ->
       buckets s !! j =
       Some (NewTimespanBucket
               (clk (n + j)%nat + Z.of_nat j * bsz)
               (clk (n + j)%nat + Z.of_nat j * bsz + bsz))).
Proof.
  eexists. split; [apply NewScheduler_any|]. cbn [buckets blockSize numBlocks].
  split; [reflexivity|]. split; [reflexivity|].
  split; [rewrite length_fmap; apply length_seq|].
  intros j Hj. rewrite list_lookup_fmap, (lookup_seq_lt 0 _ j Hj).
  split; [reflexivity|]. intros Hfit.
  rewrite <- (Mul_fits _ _ Hfit). reflexivity.
Qed.

(** ** The exact result of [update] *)

Lemma occupied_copies (b0 : TimespanBucket T) (bi : TimespanBucket T) m :
  concat (replicate (if 0 <? Size bi then S m else m) (elements b0)) =
  (if 0 <? Size bi then elements b0 else []) ++
  concat (replicate m (elements b0)).
Proof. destruct (0 <? Size bi); reflexivity. Qed.

Lemma update_salvage_exact clk bs b0 iters i acc n :
  bs !! 0%nat = Some b0 -> (i + iters <= length bs)%nat ->
  update_salvage iters i bs acc clk n =
  Some (acc ++ concat (replicate (occupied (take iters (drop i bs)))
                         (elements b0)), n).
Proof.
  intros Hb0. revert i acc. induction iters as [|iters IH]; intros i acc Hlen.
  - simpl. rewrite app_nil_r. reflexivity.
  - destruct (lookup_lt_is_Some_2 bs i) as [bi Hbi]; [lia|].
    simpl update_salvage.
    rewrite (bind_eq _ _ _ _ _ _ (index_Some _ _ _ clk n Hbi)).
    rewrite (drop_S _ _ _ Hbi). cbn [take occupied].
    rewrite occupied_copies.
    destruct (0 <? Size bi).
    + rewrite (bind_eq _ _ _ _ _ _ (index_Some _ _ _ clk n Hb0)).
      rewrite IH by lia. rewrite <- app_assoc. reflexivity.
    + rewrite IH by lia. reflexivity.
Qed.

(** What [update] returns when its scan stops at position [k]. *)
Lemma update_at clk s n k n' h b0 tl :
  update_scan 0 (buckets s) clk n = Some (k, n') ->
  buckets s !! k = Some h -> buckets s !! 0%nat = Some b0 ->
  last (buckets s) = Some tl ->
  update s clk n =
  Some (setBuckets s
          (setElements h
             (elements h ++
              concat (replicate (occupied (take k (buckets s)))
                        (elements b0)))
             :: drop (S k) (buckets s)
             ++ freshFrom (S k) (blockSize s) (endTime tl)),
        n').
Proof.
  intros Hscan Hk Hb0 Hlast. unfold update.
  pose proof (lookup_lt_Some _ _ _ Hk) as Hlt.
  rewrite (bind_eq _ _ _ _ _ _ Hscan).
  rewrite (bind_eq _ _ _ _ _ _
             (update_salvage_exact clk _ b0 k 0 [] n' Hb0 ltac:(lia))).
  assert (sliceFrom (buckets s) k clk n' =
          Some (h :: drop (S k) (buckets s), n')) as Hslice.
  { unfold sliceFrom. destruct (Nat.ltb_spec (length (buckets s)) k); [lia|].
    rewrite (drop_S _ _ _ Hk). reflexivity. }
  rewrite (bind_eq _ _ _ _ _ _ Hslice).
  assert (last (h :: drop (S k) (buckets s)) = Some tl) as Hl.
  { rewrite <- (drop_S _ _ _ Hk), (last_drop_lookup _ _ _ Hk). exact Hlast. }
  rewrite (bind_eq _ _ _ _ _ _ (indexZ_last _ _ clk n' Hl)).
  rewrite update_fresh_eq, drop_0. reflexivity.
Qed.

(** The scan stops at the first window that is not elapsed when the clock is
    read for it. *)
Lemma update_scan_found clk bs idx n k h :
  (forall i b, (i < k)%nat -> bs !! i = Some b ->
               endTime b < clk (n + i)%nat) ->
  bs !! k = Some h -> clk (n + k)%nat <= endTime h ->
  update_scan idx bs clk n = Some ((idx + k)%nat, (n + S k)%nat).
Proof.
  intros Hpast Hk Hlive.
  destruct (update_scan_spec clk bs idx n)
    as [(k' & b' & Hk' & Hlive' & Hbefore & Hscan)|[Hall _]].
  - unfold After in Hlive'. apply Z.ltb_ge in Hlive'.
    destruct (Nat.lt_trichotomy k' k) as [Hlt|[->|Hgt]].
    + specialize (Hpast _ _ Hlt Hk'). lia.
    + exact Hscan.
    + specialize (Hbefore _ _ Hgt Hk). unfold After in Hbefore.
      apply Z.ltb_lt in Hbefore. lia.
  - specialize (Hall _ _ Hk). unfold After in Hall. apply Z.ltb_lt in Hall. lia.
Qed.

(** The scan runs off the end when every window is elapsed. *)
Lemma update_scan_all_elapsed clk bs idx n :
  (forall i b, bs !! i = Some b -> endTime b < clk (n + i)%nat) ->
  update_scan idx bs clk n = Some (0%nat, (n + length bs)%nat).
Proof.
  intros Hpast.
  destruct (update_scan_spec clk bs idx n)
    as [(k' & b' & Hk' & Hlive' & _ & _)|[_ Hscan]]; [|exact Hscan].
  unfold After in Hlive'. apply Z.ltb_ge in Hlive'.
  specialize (Hpast _ _ Hk'). lia.
Qed.

Lemma setElements_same h : setElements h (elements h) = h.
Proof. destruct h. reflexivity. Qed.

(** X2.  When the first [k] windows are elapsed at the readings taken for
    them and window [k] is not, [update] reads the clock [k + 1] times and
    returns the wheel without its first [k] windows, followed by [k + 1]
    fresh empty windows chained after the end of the old tail.  Window [k]
    becomes the head; to its collection are appended as many copies of the
    collection of the old head as there are non-empty windows among the
    dropped ones.  The collections of the other kept windows are untouched. *)
Theorem update_re_anchors_at_first_live_window clk s n k h b0 tl :
  (forall i b, (i < k)%nat -> buckets s !! i = Some b ->
               endTime b < clk (n + i)%nat) ->
  buckets s !! k = Some h -> clk (n + k)%nat <= endTime h ->
  buckets s !! 0%nat = Some b0 -> last (buckets s) = Some tl ->
  update s clk n =
  Some (setBuckets s
          (setElements h
             (elements h ++
              concat (replicate (occupied (take k (buckets s)))
                        (elements b0)))
             :: drop (S k) (buckets s)
             ++ freshFrom (S k) (blockSize s) (endTime tl)),
        (n + S k)%nat).
Proof.
  intros Hpast Hk Hlive Hb0 Hlast.
  apply (update_at clk s n k (n + S k) h b0 tl); try assumption.
  apply (update_scan_found clk (buckets s) 0 n k h); assumption.
Qed.

(** When the head window is not elapsed, [update] reads the clock once and
    only appends one fresh empty window after the tail. *)
Lemma update_head_live clk s n h rest tl :
  buckets s = h :: rest -> clk n <= endTime h -> last (buckets s) = Some tl ->
  update s clk n =
  Some (setBuckets s
          (buckets s ++
             [NewTimespanBucket (endTime tl) (Add (endTime tl) (blockSize s))]),
        S n).
Proof.
  intros Hbs Hlive Hlast.
  rewrite (update_at clk s n 0 (S n) h h tl).
  - rewrite Hbs. cbn [take occupied replicate concat drop freshFrom].
    rewrite app_nil_r, setElements_same. reflexivity.
  - rewrite (update_scan_found clk (buckets s) 0 n 0 h).
    + f_equal. f_equal. lia.
    + intros i b Hi. lia.
    + rewrite Hbs. reflexivity.
    + replace (n + 0)%nat with n by lia. exact Hlive.
  - rewrite Hbs. reflexivity.
  - rewrite Hbs. reflexivity.
  - exact Hlast.
Qed.

(** X3.  When only the head window is elapsed (the second window is not, at
    the second reading), [update] drops the head, appends two fresh windows
    and moves the items of the dropped head to the new head: they follow the
    new head's own items, in order, once; nothing else changes. *)
Theorem update_salvages_single_elapsed_head clk s n b0 h rest tl :
  buckets s = b0 :: h :: rest ->
  endTime b0 < clk n -> clk (S n) <= endTime h ->
  last (buckets s) = Some tl ->
  update s clk n =
  Some (setBuckets s
          (setElements h (elements h ++ elements b0)
             :: rest ++ freshFrom 2 (blockSize s) (endTime tl)),
        (n + 2)%nat).
Proof.
  intros Hbs Hpast Hlive Hlast.
  rewrite (update_at clk s n 1 (n + 2) h b0 tl).
  - rewrite Hbs. cbn [take occupied drop].
    assert (concat (replicate (if 0 <? Size b0 then 1%nat else 0%nat)
                      (elements b0)) = elements b0) as ->.
    { unfold Size. destruct (elements b0) as [|e els]; [reflexivity|].
      simpl length. destruct (Z.ltb_spec 0 (Z.of_nat (S (length els)))); [|lia].
      cbn [replicate concat]. apply app_nil_r. }
    reflexivity.
  - apply (update_scan_found clk (buckets s) 0 n 1 h).
    + intros [|i] b Hi Hb; [|lia]. rewrite Hbs in Hb. injection Hb as <-.
      replace (n + 0)%nat with n by lia. exact Hpast.
    + rewrite Hbs. reflexivity.
    + replace (n + 1)%nat with (S n) by lia. exact Hlive.
  - rewrite Hbs. reflexivity.
  - rewrite Hbs. reflexivity.
  - exact Hlast.
Qed.

(** X4.  When every window is elapsed at the reading taken for it, [update]
    reads the clock once per window and drops nothing: the head stays the
    elapsed head, every collection is kept, and one fresh empty window is
    appended after the tail. *)
Theorem update_keeps_wheel_when_all_elapsed clk s n tl :
  (forall i b, buckets s !! i = Some b -> endTime b < clk (n + i)%nat) ->
  last (buckets s) = Some tl ->
  update s clk n =
  Some (setBuckets s
          (buckets s ++
             [NewTimespanBucket (endTime tl) (Add (endTime tl) (blockSize s))]),
        (n + length (buckets s))%nat).
Proof.
  intros Hpast Hlast.
  destruct (buckets s) as [|h rest] eqn:Hbs; [discriminate|].
  rewrite (update_at clk s n 0 (n + length (buckets s)) h h tl).
  - rewrite Hbs. cbn [take occupied replicate concat drop freshFrom].
    rewrite app_nil_r, setElements_same. reflexivity.
  - apply update_scan_all_elapsed. rewrite Hbs. exact Hpast.
  - rewrite Hbs. reflexivity.
  - rewrite Hbs. reflexivity.
  - rewrite Hbs. exact Hlast.
Qed.

(** ** The due query under any clock *)

Lemma readings_S clk n len :
  readings clk n (S len) = clk n :: readings clk (S n) len.
Proof. reflexivity. Qed.

Lemma length_readings clk n len : length (readings clk n len) = len.
Proof. unfold readings. rewrite length_fmap. apply length_seq. Qed.

Lemma length_dueMask (els : list T) rs :
  length rs = length els -> length (dueMask els rs) = length els.
Proof.
  intros Hlen. unfold dueMask. rewrite length_zip_with. lia.
Qed.

Lemma Due_collect_any clk i (els : list T) dueItems removeIdxs n :
  Due_collect i els dueItems removeIdxs clk n =
  Some ((dueItems
           ++ pick true (dueMask els (readings clk n (length els))) els,
         removeIdxs
           ++ maskIdxs i (dueMask els (readings clk n (length els)))),
        (n + length els)%nat).
Proof.
  revert i dueItems removeIdxs n.
  induction els as [|e els IH]; intros i dueItems removeIdxs n.
  - simpl. unfold ret. rewrite !app_nil_r. do 2 f_equal. lia.
  - simpl Due_collect.
    rewrite (bind_eq _ _ _ _ _ _
               (eq_refl : time_Now clk n = Some (clk n, S n))).
    cbv beta. cbn [length]. rewrite readings_S.
    change (dueMask (e :: els) (clk n :: readings clk (S n) (length els)))
      with (Before (DueTime e) (clk n)
              :: dueMask els (readings clk (S n) (length els))).
    destruct (Before (DueTime e) (clk n)); rewrite IH; cbn [pick maskIdxs Bool.eqb];
      rewrite <- ?app_assoc; cbn [app]; do 2 f_equal; lia.
Qed.

(** The index-shifting removal loop of [Due] deletes exactly the flagged
    positions and never leaves the bounds of the slice. *)
Lemma Due_remove_mask mask c (pre els : list T) clk n :
  length mask = length els ->
  Due_remove c (maskIdxs (c + length pre) mask) (pre ++ els) clk n =
  Some (pre ++ pick false mask els, n).
Proof.
  revert mask c pre. induction els as [|e els IH]; intros [|m mask] c pre Hlen;
    try discriminate.
  - reflexivity.
  - injection Hlen as Hlen. destruct m; cbn [maskIdxs pick Bool.eqb].
    + simpl Due_remove.
      rewrite (bind_eq _ _ _ _ _ _ (removeAt_middle pre e els c clk n)).
      change (S (c + length pre)) with (S c + length pre)%nat.
      apply IH. exact Hlen.
    + replace (S (c + length pre)) with (c + length (pre ++ [e]))%nat
        by (rewrite length_app; simpl; lia).
      rewrite (cons_middle e pre els), app_assoc, IH by exact Hlen.
      rewrite <- app_assoc. reflexivity.
Qed.

Lemma Due_eq_mask clk s n s1 n1 h rest :
  update s clk n = Some (s1, n1) -> buckets s1 = h :: rest ->
  Due s clk n =
  Some ((pick true
           (dueMask (elements h) (readings clk n1 (length (elements h))))
           (elements h),
         setBuckets s1
           (setElements h
              (pick false
                 (dueMask (elements h)
                    (readings clk n1 (length (elements h))))
                 (elements h))
              :: rest)),
        (n1 + length (elements h))%nat).
Proof.
  intros Hup Hbs. unfold Due.
  rewrite (bind_eq _ _ _ _ _ _ Hup).
  assert (buckets s1 !! 0%nat = Some h) as Hh by (rewrite Hbs; reflexivity).
  rewrite (bind_eq _ _ _ _ _ _ (index_Some _ _ _ clk n1 Hh)).
  rewrite (bind_eq _ _ _ _ _ _ (Due_collect_any clk 0 (elements h) [] [] n1)).
  cbn [app].
  pose proof (Due_remove_mask
                (dueMask (elements h) (readings clk n1 (length (elements h))))
                0 [] (elements h) clk (n1 + length (elements h))) as Hrem.
  cbn [app length Nat.add] in Hrem.
  rewrite (bind_eq _ _ _ _ _ _
             (Hrem (length_dueMask _ _ (length_readings _ _ _)))).
  unfold ret. rewrite Hbs. reflexivity.
Qed.

Lemma pick_true_zip (els : list T) rs :
  pick true (dueMask els rs) els =
  (filter (fun p => DueTime p.1 < p.2) (zip els rs)).*1.
Proof.
  revert rs. induction els as [|e els IH]; intros [|r rs]; try reflexivity.
  change (dueMask (e :: els) (r :: rs))
    with (Before (DueTime e) r :: dueMask els rs).
  change (zip (e :: els) (r :: rs)) with ((e, r) :: zip els rs).
  cbn [pick]. destruct (Before (DueTime e) r) eqn:Hdue; cbn [Bool.eqb].
  - apply Before_lt in Hdue. rewrite filter_cons_True by exact Hdue.
    rewrite fmap_cons, IH. reflexivity.
  - rewrite filter_cons_False; [apply IH|].
    cbn [fst snd]. intros Hlt. apply Before_lt in Hlt. congruence.
Qed.

Lemma pick_false_zip (els : list T) rs :
  length rs = length els ->
  pick false (dueMask els rs) els =
  (filter (fun p => ~ DueTime p.1 < p.2) (zip els rs)).*1.
Proof.
  revert rs. induction els as [|e els IH]; intros [|r rs] Hlen;
    try discriminate; [reflexivity|].
  injection Hlen as Hlen.
  change (dueMask (e :: els) (r :: rs))
    with (Before (DueTime e) r :: dueMask els rs).
  change (zip (e :: els) (r :: rs)) with ((e, r) :: zip els rs).
  cbn [pick]. destruct (Before (DueTime e) r) eqn:Hdue; cbn [Bool.eqb].
  - apply Before_lt in Hdue. rewrite filter_cons_False; [apply IH; exact Hlen|].
    cbn [fst snd]. intros Hn. apply Hn. exact Hdue.
  - rewrite filter_cons_True.
    + rewrite fmap_cons, IH by exact Hlen. reflexivity.
    + cbn [fst snd]. intros Hlt. apply Before_lt in Hlt. congruence.
Qed.

Lemma pick_sublist {A} flag mask (els : list A) :
  pick flag mask els `sublist_of` els.
Proof.
  revert mask. induction els as [|e els IH]; intros [|m mask]; cbn [pick];
    try apply sublist_nil_l.
  destruct (Bool.eqb m flag); [apply sublist_skip | apply sublist_cons];
    apply IH.
Qed.

Lemma pick_Permutation {A} mask (els : list A) :
  length mask = length els ->
  pick true mask els ++ pick false mask els ≡ₚ els.
Proof.
  revert mask. induction els as [|e els IH]; intros [|m mask] Hlen;
    try discriminate; [reflexivity|].
  injection Hlen as Hlen. destruct m; cbn [pick Bool.eqb].
  - cbn [app]. rewrite (IH _ Hlen). reflexivity.
  - rewrite <- Permutation_middle, (IH _ Hlen). reflexivity.
Qed.

(** C4 (amended).  [Due], after re-anchoring, inspects only the head window
    and reads the clock anew for each of its elements.  It returns exactly
    the elements of the head whose due time is strictly before the reading
    taken for them, in their order in the head, and leaves in the head, in
    order, every other element (an element due exactly at its reading
    stays); the other windows are unchanged.  In particular, when the clock
    shows one time [now] while the head is inspected, the returned elements
    are exactly those due strictly before [now]. *)
Theorem Due_returns_strictly_overdue clk s n s1 n1 h rest :
  update s clk n = Some (s1, n1) ->
  buckets s1 = h :: rest ->
  let inspected :=
    zip (elements h) (readings clk n1 (length (elements h))) in
  Due s clk n =
  Some (((filter (fun p => DueTime p.1 < p.2) inspected).*1,
         setBuckets s1
           (setElements h
              (filter (fun p => ~ DueTime p.1 < p.2) inspected).*1
              :: rest)),
        (n1 + length (elements h))%nat) /\
  forall now,
    (forall j, (j < length (elements h))%nat -> clk (n1 + j)%nat = now) ->
    Due s clk n =
    Some ((filter (fun e => DueTime e < now) (elements h),
           setBuckets s1
             (setElements h
                (filter (fun e => ~ DueTime e < now) (elements h))
                :: rest)),
          (n1 + length (elements h))%nat).
Proof.
  intros Hup Hbs inspected. subst inspected. split.
  - rewrite (Due_eq_mask clk s n s1 n1 h rest Hup Hbs).
    rewrite pick_true_zip, pick_false_zip by apply length_readings.
    reflexivity.
  - intros now Hclk. unfold Due.
    rewrite (bind_eq _ _ _ _ _ _ Hup).
    assert (buckets s1 !! 0%nat = Some h) as Hh by (rewrite Hbs; reflexivity).
    rewrite (bind_eq _ _ _ _ _ _ (index_Some _ _ _ clk n1 Hh)).
    rewrite (bind_eq _ _ _ _ _ _
               (Due_collect_stable clk now 0 (elements h) [] [] n1 Hclk)).
    cbn [app].
    pose proof (Due_remove_dueIdxs now 0 [] (elements h) clk
                  (n1 + length (elements h))) as Hrem.
    cbn [app length Nat.add] in Hrem.
    rewrite (bind_eq _ _ _ _ _ _ Hrem).
    unfold ret. rewrite Hbs. reflexivity.
Qed.

(** X5.  Under any clock, once its re-anchor has returned, [Due] returns too:
    the index-shifting removal never leaves the bounds of the slice.  It
    reads the clock once for every element of the head window, returns the
    elements that are due strictly before the reading taken for them and
    leaves the others in the head, both in their order; the other windows
    are unchanged. *)
Theorem Due_under_any_clock clk s n s1 n1 h rest :
  update s clk n = Some (s1, n1) -> buckets s1 = h :: rest ->
  let inspected :=
    zip (elements h) (readings clk n1 (length (elements h))) in
  Due s clk n =
  Some (((filter (fun p => DueTime p.1 < p.2) inspected).*1,
         setBuckets s1
           (setElements h
              (filter (fun p => ~ DueTime p.1 < p.2) inspected).*1
              :: rest)),
        (n1 + length (elements h))%nat).
Proof.
  intros Hup Hbs inspected. subst inspected.
  rewrite (Due_eq_mask clk s n s1 n1 h rest Hup Hbs).
  rewrite pick_true_zip, pick_false_zip by apply length_readings.
  reflexivity.
Qed.

(** X6.  Whatever the clock shows, [Due] neither loses nor duplicates an
    element of the head window: the elements it returns and the elements it
    leaves in the head are two subsequences of the head's collection after
    the re-anchor, and together a permutation of it. *)
Theorem Due_partitions_head clk s n items s2 n2 :
  Due s clk n = Some ((items, s2), n2) ->
  exists s1 n1 h rest kept,
    update s clk n = Some (s1, n1) /\ buckets s1 = h :: rest /\
    s2 = setBuckets s1 (setElements h kept :: rest) /\
    items ++ kept ≡ₚ elements h /\
    items `sublist_of` elements h /\ kept `sublist_of` elements h.
Proof.
  intros Hdue.
  assert (exists s1 n1, update s clk n = Some (s1, n1)) as (s1 & n1 & Hup).
  { unfold Due in Hdue. apply bind_Some in Hdue as (s1 & n1 & Hup & _). eauto. }
  destruct (buckets s1) as [|h rest] eqn:Hbs.
  { pose proof (update_length _ _ _ _ _ Hup) as Hlen. rewrite Hbs in Hlen.
    discriminate. }
  rewrite (Due_eq_mask clk s n s1 n1 h rest Hup Hbs) in Hdue.
  injection Hdue as <- <- _.
  eexists s1, n1, h, rest, _. split; [exact Hup|]. split; [exact Hbs|].
  split; [reflexivity|]. split; [|split; apply pick_sublist].
  apply pick_Permutation, length_dueMask, length_readings.
Qed.

(** ** Public calls never panic on a non-empty wheel *)

Lemma update_returns clk s n :
  buckets s <> [] -> exists s1 n1, update s clk n = Some (s1, n1).
Proof.
  intros Hne.
  destruct (update_shape clk s n Hne) as (k & n1 & h & rest & tl & ov & _ & _ & _ & Heq).
  eauto.
Qed.

Lemma perform_returns op clk s n :
  buckets s <> [] ->
  exists s' n', perform op s clk n = Some (s', n') /\ buckets s' <> [].
Proof.
  intros Hne.
  assert (exists s' n', perform op s clk n = Some (s', n'))
    as (s' & n' & Hrun).
  { destruct (update_returns clk s n Hne) as (s1 & n1 & Hup).
    destruct (buckets s1) as [|h rest] eqn:Hbs.
    { pose proof (update_length _ _ _ _ _ Hup) as Hlen. rewrite Hbs in Hlen.
      discriminate. }
    destruct op as [entity| |]; unfold perform.
    - unfold AddReminder. rewrite (bind_eq _ _ _ _ _ _ Hup).
      assert (buckets s1 !! 0%nat = Some h) as Hh by (rewrite Hbs; reflexivity).
      rewrite (bind_eq _ _ _ _ _ _ (index_Some _ _ _ clk n1 Hh)).
      destruct (IsAfter h (DueTime entity)); [eexists _, _; reflexivity|].
      destruct (last (buckets s1)) as [tl|] eqn:Htl;
        [|apply last_None in Htl; congruence].
      rewrite (bind_eq _ _ _ _ _ _ (indexZ_last _ _ clk n1 Htl)).
      destruct (IsBefore tl (DueTime entity)); eexists _, _; reflexivity.
    - rewrite (bind_eq _ _ _ _ _ _ (Due_eq_mask clk s n s1 n1 h rest Hup Hbs)).
      eexists _, _. reflexivity.
    - assert (Dump s clk n = Some ((describe <$> buckets s1, s1), n1)) as Hdump.
      { unfold Dump. rewrite (bind_eq _ _ _ _ _ _ Hup). reflexivity. }
      rewrite (bind_eq _ _ _ _ _ _ Hdump). eexists _, _. reflexivity. }
  exists s', n'. split; [exact Hrun|].
  pose proof (perform_length _ _ _ _ _ _ Hrun) as Hlen.
  intros Hnil. rewrite Hnil in Hlen. discriminate.
Qed.

(** X7.  On a wheel with at least one window no public call ever panics:
    every sequence of [AddReminder], [Due] and [Dump] calls returns, whatever
    the clock shows, the block size is and the items are. *)
Theorem public_calls_never_panic clk s n ops :
  buckets s <> [] ->
  exists s' n', performAll ops s clk n = Some (s', n') /\ buckets s' <> [].
Proof.
  revert s n. induction ops as [|op ops IH]; intros s n Hne.
  - exists s, n. split; [reflexivity | exact Hne].
  - destruct (perform_returns op clk s n Hne) as (s1 & n1 & Hop & Hne1).
    destruct (IH s1 n1 Hne1) as (s' & n' & Hrun & Hne').
    exists s', n'. split; [|exact Hne'].
    simpl. rewrite (bind_eq _ _ _ _ _ _ Hop). exact Hrun.
Qed.

(** ** Invariants of a wheel from its construction onwards *)

Lemma update_fields clk s n s1 n1 :
  update s clk n = Some (s1, n1) ->
  blockSize s1 = blockSize s /\ numBlocks s1 = numBlocks s.
Proof.
  intros Hup. destruct (buckets s) as [|b0 rest0] eqn:Hbs.
  - rewrite update_nil in Hup by exact Hbs. discriminate.
  - destruct (update_shape clk s n)
      as (k & n' & h & rest & tl & ov & _ & _ & _ & Heq); [congruence|].
    rewrite Heq in Hup. injection Hup as <- _. split; reflexivity.
Qed.

Lemma perform_fields op clk s n s' n' :
  perform op s clk n = Some (s', n') ->
  blockSize s' = blockSize s /\ numBlocks s' = numBlocks s.
Proof.
  intros Hrun.
  destruct (perform_after_update _ _ _ _ _ _ Hrun)
    as (s1 & n1 & Hup & _ & Hbsz & Hnb).
  destruct (update_fields _ _ _ _ _ Hup) as [Hbsz1 Hnb1].
  split; congruence.
Qed.

Lemma performAll_fields ops clk s n s' n' :
  performAll ops s clk n = Some (s', n') ->
  blockSize s' = blockSize s /\ numBlocks s' = numBlocks s.
Proof.
  revert s n. induction ops as [|op ops IH]; intros s n Hrun.
  - injection Hrun as <- _. split; reflexivity.
  - simpl in Hrun. apply bind_Some in Hrun as (s1 & n1 & Hop & Hrun).
    destruct (perform_fields _ _ _ _ _ _ Hop) as [H1 H2].
    destruct (IH _ _ Hrun) as [H3 H4]. split; congruence.
Qed.

(** X8.  Every public call that returns leaves the wheel one window longer
    than it found it, and never touches the stored [numBlocks] and
    [blockSize]: after [m] calls the wheel has [m] windows more than before,
    whatever [numBlocks] says. *)
Theorem wheel_grows_by_one_window_per_call clk s n ops s' n' :
  performAll ops s clk n = Some (s', n') ->
  length (buckets s') = (length (buckets s) + length ops)%nat /\
  numBlocks s' = numBlocks s /\ blockSize s' = blockSize s.
Proof.
  intros Hrun. split; [eapply performAll_length; exact Hrun|].
  destruct (performAll_fields _ _ _ _ _ _ Hrun) as [Hbsz Hnb].
  split; assumption.
Qed.

Lemma blockWide_spans bsz bs1 bs2 :
  span <$> bs1 = span <$> bs2 ->
  Forall (blockWide bsz) bs1 -> Forall (blockWide bsz) bs2.
Proof.
  revert bs2. induction bs1 as [|a bs1 IH]; intros [|b bs2] Heq Hw;
    try discriminate; [constructor|].
  injection Heq as Hs He Hrest. apply Forall_cons in Hw as [Ha Hw].
  constructor; [|apply IH; assumption].
  unfold blockWide in *. congruence.
Qed.

Lemma blockWide_freshFrom iters bsz t :
  Forall (blockWide bsz) (freshFrom (T:=T) iters bsz t).
Proof.
  revert t. induction iters as [|iters IH]; intros t; simpl; constructor;
    [reflexivity | apply IH].
Qed.

Lemma update_blockWide clk s n s1 n1 :
  Forall (blockWide (blockSize s)) (buckets s) ->
  update s clk n = Some (s1, n1) ->
  Forall (blockWide (blockSize s1)) (buckets s1).
Proof.
  intros Hw Hup. destruct (update_fields _ _ _ _ _ Hup) as [-> _].
  destruct (buckets s) as [|b0 rest0] eqn:Hbs.
  - rewrite update_nil in Hup by exact Hbs. discriminate.
  - destruct (update_shape clk s n)
      as (k & n' & h & rest & tl & ov & _ & Hdrop & _ & Heq); [congruence|].
    rewrite Heq in Hup. injection Hup as <- _.
    unfold setBuckets. cbn [buckets]. rewrite Hbs in Hdrop.
    destruct (Forall_drop_cons _ _ _ _ _ Hw Hdrop) as [Hh Hrest].
    constructor; [exact Hh|]. apply Forall_app. split; [exact Hrest|].
    apply (blockWide_freshFrom (S k)).
Qed.

Lemma performAll_blockWide ops clk s n s' n' :
  Forall (blockWide (blockSize s)) (buckets s) ->
  performAll ops s clk n = Some (s', n') ->
  Forall (blockWide (blockSize s')) (buckets s').
Proof.
  revert s n. induction ops as [|op ops IH]; intros s n Hw Hrun.
  - injection Hrun as <- _. exact Hw.
  - simpl in Hrun. apply bind_Some in Hrun as (s2 & n2 & Hop & Hrun).
    eapply IH; [|exact Hrun].
    destruct (perform_after_update _ _ _ _ _ _ Hop)
      as (s1 & n1 & Hup & Hspans & Hbsz & _).
    rewrite Hbsz. eapply blockWide_spans; [symmetry; exact Hspans|].
    eapply update_blockWide; eassumption.
Qed.

(** X9.  From construction onwards, after any sequence of public calls and
    under any clock, every window of the wheel is exactly one block wide:
    its end is its start plus the block size given to [NewScheduler]. *)
Theorem windows_are_one_block_wide clk bsz nb n ops s' n' :
  bind (NewScheduler bsz nb) (performAll ops) clk n = Some (s', n') ->
  blockSize s' = bsz /\
  forall i b, buckets s' !! i = Some b -> endTime b = startTime b + bsz.
Proof.
  intros Hrun. apply bind_Some in Hrun as (s0 & n0 & Hnew & Hrun).
  rewrite NewScheduler_any in Hnew. injection Hnew as <- _.
  destruct (performAll_fields _ _ _ _ _ _ Hrun) as [Hbsz _].
  cbn [blockSize] in Hbsz.
  assert (Forall (blockWide (blockSize s')) (buckets s')) as Hw.
  { eapply performAll_blockWide; [|exact Hrun]. cbn [buckets blockSize].
    apply Forall_fmap, Forall_forall. intros j _. reflexivity. }
  rewrite Hbsz in Hw. split; [exact Hbsz|]. intros i b Hb.
  apply (proj1 (Forall_lookup _ _) Hw i b Hb).
Qed.

(** X10.  With a monotone clock, a positive block size and a positive number
    of blocks such that no product [j * blockSize] of the construction loop
    overflows an [int64], after construction and any sequence of public
    calls every window is a non-empty interval and the windows are in
    ascending order without overlap: an earlier window ends at or before the
    start of every later one. *)
Theorem windows_stay_ascending clk bsz nb n ops s' n' :
  monotone clk -> 0 < bsz -> 0 < nb -> noOverflow bsz nb ->
  bind (NewScheduler bsz nb) (performAll ops) clk n = Some (s', n') ->
  (forall i b, buckets s' !! i = Some b -> startTime b < endTime b) /\
  (forall i j a b, (i < j)%nat -> buckets s' !! i = Some a ->
                   buckets s' !! j = Some b -> endTime a <= startTime b).
Proof.
  intros Hmono Hb Hn Hfit Hrun.
  apply bind_Some in Hrun as (s0 & n0 & Hnew & Hrun).
  destruct (NewScheduler_wheel_ascending clk bsz nb n Hmono Hb Hn Hfit)
    as (s0' & n0' & Hnew' & Hasc).
  assert (s0' = s0) as -> by congruence.
  pose proof (performAll_wheel_ascending _ _ _ _ _ _ Hasc Hrun)
    as (_ & h & rest & Hbs & Ha).
  split.
  - intros i b Hi. apply (ascending_bounds _ _ _ _ Ha Hi).
  - intros i j a b Hij Hi Hj. apply (ascending_lt _ _ _ _ _ _ Ha Hij Hi Hj).
Qed.

(** X11.  When the clock shows one value at all the reads that
    [NewScheduler] makes and no product [j * blockSize] of its loop
    overflows an [int64], the windows it builds are contiguous, and they
    stay contiguous after any sequence of public calls, whatever the clock
    shows later. *)
Theorem windows_stay_contiguous clk bsz nb n ops s' n' t :
  (forall j, (j < Z.to_nat nb)%nat -> clk (n + j)%nat = t) ->
  noOverflow bsz nb ->
  bind (NewScheduler bsz nb) (performAll ops) clk n = Some (s', n') ->
  contiguous (buckets s').
Proof.
  intros Hclk Hfit Hrun. apply bind_Some in Hrun as (s0 & n0 & Hnew & Hrun).
  rewrite NewScheduler_any in Hnew. injection Hnew as <- _.
  eapply performAll_contiguous; [|exact Hrun]. cbn [buckets].
  intros i a b Ha Hb.
  rewrite list_lookup_fmap in Ha, Hb.
  destruct (seq 0 (Z.to_nat nb) !! i) as [x|] eqn:Hx; [|discriminate].
  destruct (seq 0 (Z.to_nat nb) !! S i) as [y|] eqn:Hy; [|discriminate].
  apply lookup_seq in Hx as [-> Hx]. apply lookup_seq in Hy as [-> Hy].
  injection Ha as <-. injection Hb as <-. cbn [startTime endTime NewTimespanBucket].
  rewrite !Hclk by lia.
  rewrite !Mul_fits by (apply Hfit; lia). lia.
Qed.

(** ** The predicates of a window *)

(** X12.  For a window whose start is before its end, every time falls in
    exactly one of five cases: before the start ([IsAfter]), on the start,
    strictly inside ([Contains]), on the end, or after the end ([IsBefore]);
    on the two bounds all three predicates are false. *)
Theorem window_predicates_partition b (d : Time) :
  startTime b < endTime b ->
  (d < startTime b /\
   IsAfter b d = true /\ Contains b d = false /\ IsBefore b d = false)
  \/ (d = startTime b /\
      IsAfter b d = false /\ Contains b d = false /\ IsBefore b d = false)
  \/ (startTime b < d < endTime b /\
      IsAfter b d = false /\ Contains b d = true /\ IsBefore b d = false)
  \/ (d = endTime b /\
      IsAfter b d = false /\ Contains b d = false /\ IsBefore b d = false)
  \/ (endTime b < d /\
      IsAfter b d = false /\ Contains b d = false /\ IsBefore b d = true).
Proof.
  intros Hp. unfold IsAfter, IsBefore, Contains, After, Before.
  destruct (Z.ltb_spec d (startTime b)), (Z.ltb_spec (startTime b) d),
    (Z.ltb_spec d (endTime b)), (Z.ltb_spec (endTime b) d);
    try lia; cbn [andb];
    first
      [ solve [left; repeat split; first [reflexivity | lia]]
      | solve [right; left; repeat split; first [reflexivity | lia]]
      | solve [right; right; left; repeat split; first [reflexivity | lia]]
      | solve [right; right; right; left; repeat split;
               first [reflexivity | lia]]
      | solve [right; right; right; right; repeat split;
               first [reflexivity | lia]] ].
Qed.

(** ** Calls at one instant *)

Lemma readings_frozen now n len : readings (frozen now) n len = replicate len now.
Proof.
  revert n. induction len as [|len IH]; intros n; [reflexivity|].
  rewrite readings_S, IH. reflexivity.
Qed.

Lemma dueMask_frozen (els : list T) now n :
  dueMask els (readings (frozen now) n (length els)) =
  (fun e => Before (DueTime e) now) <$> els.
Proof.
  rewrite readings_frozen. induction els as [|e els IH]; [reflexivity|].
  cbn [length replicate]. unfold dueMask in *. cbn [zip_with].
  rewrite IH. reflexivity.
Qed.

Lemma pick_true_frozen (els : list T) now :
  pick true ((fun e => Before (DueTime e) now) <$> els) els =
  filter (fun e => DueTime e < now) els.
Proof.
  induction els as [|e els IH]; [reflexivity|].
  rewrite fmap_cons. cbn [pick].
  destruct (Before (DueTime e) now) eqn:Hdue; cbn [Bool.eqb].
  - apply Before_lt in Hdue. rewrite filter_cons_True by exact Hdue.
    rewrite IH. reflexivity.
  - rewrite filter_cons_False; [exact IH|].
    intros Hlt. apply Before_lt in Hlt. congruence.
Qed.

Lemma pick_false_frozen (els : list T) now :
  pick false ((fun e => Before (DueTime e) now) <$> els) els =
  filter (fun e => ~ DueTime e < now) els.
Proof.
  induction els as [|e els IH]; [reflexivity|].
  rewrite fmap_cons. cbn [pick].
  destruct (Before (DueTime e) now) eqn:Hdue; cbn [Bool.eqb].
  - apply Before_lt in Hdue.
    rewrite filter_cons_False; [exact IH|]. intros Hn. apply Hn. exact Hdue.
  - rewrite filter_cons_True; [rewrite IH; reflexivity|].
    intros Hlt. apply Before_lt in Hlt. congruence.
Qed.

(** [Due] when the clock stands still at [now]. *)
Lemma Due_frozen_eq now s n s1 n1 h rest :
  update s (frozen now) n = Some (s1, n1) -> buckets s1 = h :: rest ->
  Due s (frozen now) n =
  Some ((filter (fun e => DueTime e < now) (elements h),
         setBuckets s1
           (setElements h (filter (fun e => ~ DueTime e < now) (elements h))
              :: rest)),
        (n1 + length (elements h))%nat).
Proof.
  intros Hup Hbs. rewrite (Due_eq_mask _ s n s1 n1 h rest Hup Hbs).
  rewrite dueMask_frozen, pick_true_frozen, pick_false_frozen. reflexivity.
Qed.

Lemma filter_due_of_kept (els : list T) now :
  filter (fun e => DueTime e < now) (filter (fun e => ~ DueTime e < now) els)
  = [].
Proof.
  induction els as [|e els IH]; [reflexivity|].
  destruct (decide (DueTime e < now)) as [Hd|Hd].
  - rewrite (filter_cons_False _ e els); [exact IH|]. intros Hn. apply Hn, Hd.
  - rewrite (filter_cons_True _ e els) by exact Hd.
    rewrite filter_cons_False by exact Hd. exact IH.
Qed.

Lemma filter_kept_of_kept (els : list T) now :
  filter (fun e => ~ DueTime e < now)
    (filter (fun e => ~ DueTime e < now) els)
  = filter (fun e => ~ DueTime e < now) els.
Proof.
  induction els as [|e els IH]; [reflexivity|].
  destruct (decide (DueTime e < now)) as [Hd|Hd].
  - rewrite (filter_cons_False _ e els); [exact IH|]. intros Hn. apply Hn, Hd.
  - rewrite (filter_cons_True _ e els) by exact Hd.
    rewrite filter_cons_True by exact Hd. rewrite IH. reflexivity.
Qed.

(** With the clock standing still at [now] and some window not elapsed, the
    head window after [update] is not elapsed. *)
Lemma update_frozen_head now s n s1 n1 :
  (exists i b, buckets s !! i = Some b /\ now <= endTime b) ->
  update s (frozen now) n = Some (s1, n1) ->
  exists h rest, buckets s1 = h :: rest /\ now <= endTime h.
Proof.
  intros (i & b & Hb & Hlive) Hup.
  assert (buckets s <> []) as Hne
      by (intros Hnil; rewrite Hnil in Hb; discriminate).
  destruct (update_shape (frozen now) s n Hne)
    as (k & n' & h & rest & tl & ov & Hscan & Hdrop & _ & Heq).
  rewrite Heq in Hup. injection Hup as <- _.
  eexists _, _. split; [reflexivity|]. cbn [endTime setElements].
  destruct (update_scan_spec (frozen now) (buckets s) 0 n)
    as [(k' & b' & Hk' & Hlive' & _ & Hscan')|[Hall _]].
  - rewrite Hscan' in Hscan. injection Hscan as <- _.
    rewrite (drop_S _ _ _ Hk') in Hdrop. injection Hdrop as <- _.
    unfold After, frozen in Hlive'. apply Z.ltb_ge in Hlive'. exact Hlive'.
  - specialize (Hall _ _ Hb). unfold After, frozen in Hall.
    apply Z.ltb_lt in Hall. lia.
Qed.

Lemma last_cons_is_Some h rest : exists tl, last (h :: rest) = Some tl.
Proof.
  destruct (last (h :: rest)) as [tl|] eqn:Hl; [eauto|].
  apply last_None in Hl. discriminate.
Qed.

(** X13.  With the clock standing still and at least one window not elapsed,
    a second [Due] at the same instant returns nothing: it leaves every
    collection as the first [Due] left it and only appends one more empty
    window. *)
Theorem Due_again_returns_nothing now s n items s2 n2 :
  (exists i b, buckets s !! i = Some b /\ now <= endTime b) ->
  Due s (frozen now) n = Some ((items, s2), n2) ->
  exists s3 n3,
    Due s2 (frozen now) n2 = Some (([], s3), n3) /\
    elements <$> buckets s3 = (elements <$> buckets s2) ++ [[]].
Proof.
  intros Hlive Hdue.
  assert (exists s1 n1, update s (frozen now) n = Some (s1, n1))
    as (s1 & n1 & Hup).
  { unfold Due in Hdue. apply bind_Some in Hdue as (s1 & n1 & Hup & _). eauto. }
  destruct (update_frozen_head now s n s1 n1 Hlive Hup)
    as (h & rest & Hbs & Hh).
  rewrite (Due_frozen_eq now s n s1 n1 h rest Hup Hbs) in Hdue.
  injection Hdue as _ <- <-.
  set (kept := filter (fun e => ~ DueTime e < now) (elements h)).
  set (s2 := setBuckets s1 (setElements h kept :: rest)).
  destruct (last_cons_is_Some (setElements h kept) rest) as [tl Htl].
  pose proof (update_head_live (frozen now) s2 (n1 + length (elements h))
                (setElements h kept) rest tl eq_refl Hh Htl) as Hup2.
  rewrite (Due_frozen_eq now s2 _ _ _ (setElements h kept)
             (rest ++ [NewTimespanBucket (endTime tl)
                         (Add (endTime tl) (blockSize s2))]) Hup2 eq_refl).
  eexists _, _. split.
  - cbn [elements setElements]. subst kept. rewrite filter_due_of_kept.
    reflexivity.
  - cbn [elements setElements buckets setBuckets]. subst kept.
    rewrite filter_kept_of_kept. subst s2. cbn [buckets setBuckets].
    rewrite !fmap_cons, fmap_app. reflexivity.
Qed.

(** X14.  With the clock standing still at [now] and the head window not
    elapsed, a reminder that is due before the start of the head window and
    before [now] is put into the head window by [AddReminder] and returned
    by a [Due] at the same instant, after the due items that the head held
    before. *)
Theorem overdue_reminder_is_due_at_once now s n s1 n1 h rest entity :
  update s (frozen now) n = Some (s1, n1) -> buckets s1 = h :: rest ->
  now <= endTime h ->
  DueTime entity < startTime h -> DueTime entity < now ->
  exists s2 s3 n3,
    AddReminder entity s (frozen now) n = Some (s2, n1) /\
    buckets s2 = AddEntity h entity :: rest /\
    Due s2 (frozen now) n1 =
    Some ((filter (fun e => DueTime e < now) (elements h) ++ [entity], s3),
          n3).
Proof.
  intros Hup Hbs Hlive Hbefore Hdue.
  set (s2 := setBuckets s1 (AddEntity h entity :: rest)).
  assert (AddReminder entity s (frozen now) n = Some (s2, n1)) as Hadd.
  { unfold AddReminder. rewrite (bind_eq _ _ _ _ _ _ Hup).
    assert (buckets s1 !! 0%nat = Some h) as Hh by (rewrite Hbs; reflexivity).
    rewrite (bind_eq _ _ _ _ _ _ (index_Some _ _ _ (frozen now) n1 Hh)).
    assert (IsAfter h (DueTime entity) = true) as ->.
    { unfold IsAfter, After. apply Z.ltb_lt. exact Hbefore. }
    unfold ret. subst s2. rewrite Hbs. reflexivity. }
  destruct (last_cons_is_Some (AddEntity h entity) rest) as [tl Htl].
  pose proof (update_head_live (frozen now) s2 n1 (AddEntity h entity) rest tl
                eq_refl Hlive Htl) as Hup2.
  exists s2. eexists _, _. split; [exact Hadd|]. split; [reflexivity|].
  rewrite (Due_frozen_eq now s2 _ _ _ (AddEntity h entity)
             (rest ++ [NewTimespanBucket (endTime tl)
                         (Add (endTime tl) (blockSize s2))]) Hup2 eq_refl).
  cbn [elements AddEntity]. rewrite filter_app.
  rewrite (filter_cons_True _ entity []) by exact Hdue.
  reflexivity.
Qed.

(** X16.  With the clock standing still at [now]: an item that waits in the
    first window that is not elapsed, and that is due before [now], is among
    the items that [Due] returns, however many elapsed windows precede its
    window. *)
Theorem Due_returns_due_item_of_first_live_window now s n k h (e : T) :
  (forall i b, (i < k)%nat -> buckets s !! i = Some b -> endTime b < now) ->
  buckets s !! k = Some h -> now <= endTime h ->
  e ∈ elements h -> DueTime e < now ->
  exists items s' n',
    Due s (frozen now) n = Some ((items, s'), n') /\ e ∈ items.
Proof.
  intros Hpast Hk Hlive He Hdue.
  destruct (buckets s) as [|b0 rest0] eqn:Hbs; [discriminate|].
  destruct (last_cons_is_Some b0 rest0) as [tl Htl].
  rewrite <- Hbs in Hk, Htl, Hpast.
  assert (buckets s !! 0%nat = Some b0) as Hb0 by (rewrite Hbs; reflexivity).
  pose proof (update_at (frozen now) s n k (n + S k) h b0 tl
                (update_scan_found (frozen now) (buckets s) 0 n k h
                   Hpast Hk Hlive) Hk Hb0 Htl) as Hup.
  eexists _, _, _. split.
  - apply (Due_frozen_eq now s n _ _ _ _ Hup eq_refl).
  - cbn [elements setElements]. apply list_elem_of_filter.
    split; [exact Hdue|]. apply elem_of_app. left. exact He.
Qed.

(** ** The items of the wheel *)

Lemma elem_of_concat_elements bs (e : T) :
  e ∈ concat (elements <$> bs) <-> exists b, b ∈ bs /\ e ∈ elements b.
Proof.
  induction bs as [|a bs IH].
  - split; [intros He; inversion He|]. intros (b & Hb & _). inversion Hb.
  - rewrite fmap_cons. cbn [concat]. rewrite elem_of_app, IH. split.
    + intros [He|(b & Hb & He)].
      * exists a. split; [apply elem_of_cons; left; reflexivity | exact He].
      * exists b. split; [apply elem_of_cons; right; exact Hb | exact He].
    + intros (b & Hb & He). apply elem_of_cons in Hb as [->|Hb].
      * left. exact He.
      * right. exists b. split; assumption.
Qed.

Lemma elem_of_concat_replicate (e : T) m els :
  e ∈ concat (replicate m els) -> e ∈ els.
Proof.
  induction m as [|m IH]; cbn [replicate concat]; [intros He; inversion He|].
  rewrite elem_of_app. intros [He|He]; [exact He | apply IH; exact He].
Qed.

Lemma elements_freshFrom iters bsz t (b : TimespanBucket T) :
  b ∈ freshFrom iters bsz t -> elements b = [].
Proof.
  revert t. induction iters as [|iters IH]; intros t; simpl;
    [intros Hb; inversion Hb|].
  intros Hb. apply elem_of_cons in Hb as [->|Hb]; [reflexivity|].
  eapply IH. exact Hb.
Qed.

(** [update] moves and copies items, it never makes up one. *)
Lemma update_items clk s n s1 n1 (e : T) :
  update s clk n = Some (s1, n1) -> e ∈ allItems s1 -> e ∈ allItems s.
Proof.
  intros Hup. destruct (buckets s) as [|b0 rest0] eqn:Hbs.
  { rewrite update_nil in Hup by exact Hbs. discriminate. }
  destruct (update_shape clk s n)
    as (k & n' & h & rest & tl & ov & Hscan & Hdrop & Hlast & _);
    [congruence|].
  assert (buckets s !! k = Some h) as Hk.
  { rewrite <- (Nat.add_0_r k), <- lookup_drop, Hdrop. reflexivity. }
  assert (buckets s !! 0%nat = Some b0) as Hb0 by (rewrite Hbs; reflexivity).
  rewrite (update_at clk s n k n' h b0 tl Hscan Hk Hb0 Hlast) in Hup.
  injection Hup as <- _. unfold allItems. cbn [buckets setBuckets].
  rewrite !elem_of_concat_elements. intros (b & Hb & He).
  apply elem_of_cons in Hb as [->|Hb].
  - cbn [elements setElements] in He. apply elem_of_app in He as [He|He].
    + exists h. split; [eapply list_elem_of_lookup_2; exact Hk | exact He].
    + exists b0. split; [eapply list_elem_of_lookup_2; exact Hb0|].
      eapply elem_of_concat_replicate. exact He.
  - apply elem_of_app in Hb as [Hb|Hb].
    + exists b. split; [|exact He].
      eapply (sublist_subseteq _ _ (sublist_drop _ (S k))). exact Hb.
    + rewrite (elements_freshFrom (S k) _ _ _ Hb) in He. inversion He.
Qed.

Lemma insert_AddEntity_items bs i b entity (e : T) :
  bs !! i = Some b ->
  e ∈ concat (elements <$> <[i := AddEntity b entity]> bs) ->
  e ∈ concat (elements <$> bs) \/ e = entity.
Proof.
  intros Hi. rewrite !elem_of_concat_elements. intros (b' & Hb' & He).
  apply list_elem_of_lookup in Hb' as (j & Hj).
  apply list_lookup_insert_Some in Hj as [(-> & <- & _)|(_ & Hj)].
  - cbn [elements AddEntity] in He. apply elem_of_app in He as [He|He].
    + left. exists b. split; [eapply list_elem_of_lookup_2; exact Hi | exact He].
    + right. apply list_elem_of_singleton in He. exact He.
  - left. exists b'. split; [eapply list_elem_of_lookup_2; exact Hj | exact He].
Qed.

Lemma AddReminder_place_items bs entity (e : T) :
  e ∈ concat (elements <$> AddReminder_place entity bs) ->
  e ∈ concat (elements <$> bs) \/ e = entity.
Proof.
  induction bs as [|a bs IH]; [intros He; left; exact He|].
  simpl AddReminder_place. destruct (Contains a (DueTime entity)).
  - rewrite !fmap_cons. cbn [concat elements AddEntity].
    rewrite !elem_of_app. rewrite list_elem_of_singleton. tauto.
  - rewrite !fmap_cons. cbn [concat]. rewrite !elem_of_app.
    intros [He|He]; [tauto|]. destruct (IH He); tauto.
Qed.

Lemma perform_items op clk s n s' n' (e : T) :
  perform op s clk n = Some (s', n') ->
  e ∈ allItems s' -> e ∈ allItems s \/ e ∈ added [op].
Proof.
  destruct op as [entity| |]; unfold perform; intros Hrun He.
  - unfold AddReminder in Hrun.
    apply bind_Some in Hrun as (s1 & n1 & Hup & Hrun).
    apply bind_Some in Hrun as (h & n1' & Hh & Hrun).
    apply index_inv in Hh as [Hh ->].
    assert (e ∈ allItems s1 \/ e = entity) as [Hin | ->].
    { unfold allItems in *. destruct (IsAfter h (DueTime entity)).
      { injection Hrun as <- _. cbn [buckets setBuckets] in He.
        eapply insert_AddEntity_items; eassumption. }
      apply bind_Some in Hrun as (tl & n1' & Htl & Hrun).
      unfold indexZ in Htl.
      destruct (Z.of_nat (length (buckets s1)) - 1 <? 0); [discriminate|].
      apply index_inv in Htl as [Htl ->].
      destruct (IsBefore tl (DueTime entity)); injection Hrun as <- _;
        cbn [buckets setBuckets] in He.
      - eapply insert_AddEntity_items; eassumption.
      - apply AddReminder_place_items. exact He. }
    + left. eapply update_items; eassumption.
    + right. cbn [added]. apply list_elem_of_singleton. reflexivity.
  - left. apply bind_Some in Hrun as ([items s2] & n2 & Hdue & Hret).
    injection Hret as <- _. cbn [snd] in He.
    assert (exists s1 n1, update s clk n = Some (s1, n1)) as (s1 & n1 & Hup).
    { unfold Due in Hdue. apply bind_Some in Hdue as (s1 & n1 & Hup & _).
      eauto. }
    destruct (buckets s1) as [|h rest] eqn:Hbs.
    { pose proof (update_length _ _ _ _ _ Hup) as Hlen. rewrite Hbs in Hlen.
      discriminate. }
    rewrite (Due_eq_mask clk s n s1 n1 h rest Hup Hbs) in Hdue.
    injection Hdue as _ <- _.
    eapply update_items; [exact Hup|].
    unfold allItems in *. cbn [buckets setBuckets] in He. rewrite Hbs.
    rewrite fmap_cons in He |- *. cbn [concat elements setElements] in He |- *.
    apply elem_of_app in He as [He|He]; apply elem_of_app; [left | right; exact He].
    eapply (sublist_subseteq _ _ (pick_sublist _ _ _)). exact He.
  - left. apply bind_Some in Hrun as ([out s2] & n2 & Hdump & Hret).
    injection Hret as <- _. cbn [snd] in He. unfold Dump in Hdump.
    apply bind_Some in Hdump as (s1 & n1 & Hup & Hdump).
    injection Hdump as _ <- _. eapply update_items; eassumption.
Qed.

(** X15.  No public call makes up an item: whatever the clock shows, every
    item that the wheel holds after a sequence of public calls was in the
    wheel before the sequence or is an entity that one of its [AddReminder]
    calls added. *)
Theorem public_calls_never_invent_items clk s n ops s' n' (e : T) :
  performAll ops s clk n = Some (s', n') ->
  e ∈ allItems s' -> e ∈ allItems s \/ e ∈ added ops.
Proof.
  revert s n. induction ops as [|op ops IH]; intros s n Hrun He.
  - injection Hrun as <- _. left. exact He.
  - simpl in Hrun. apply bind_Some in Hrun as (s1 & n1 & Hop & Hrun).
    destruct (IH _ _ Hrun He) as [Hin|Hin].
    + destruct (perform_items _ _ _ _ _ _ _ Hop Hin) as [Hs|Hadd];
        [left; exact Hs|].
      right. destruct op as [entity| |]; cbn [added] in Hadd |- *;
        [|inversion Hadd|inversion Hadd].
      apply list_elem_of_singleton in Hadd as ->.
      apply elem_of_cons. left. reflexivity.
    + right. destruct op as [entity| |]; cbn [added]; [|exact Hin|exact Hin].
      apply elem_of_cons. right. exact Hin.
Qed.

End Proofs.

(** * The wheel at concrete inputs *)

Lemma wheel0_ok : wheel_ok wheel0.
Proof.
  unfold wheel_ok, wheel0. cbn [buckets blockSize].
  split; [lia|]. split; [discriminate|]. split.
  - apply contiguous_cons. simpl. tauto.
  - repeat constructor; unfold proper; simpl; lia.
Qed.

Lemma newWheel_frozen : run newWheel (frozen 0) = Some wheel0.
Proof. reflexivity. Qed.

(** C8, counterexample.  At the instant the window [2, 4) ends the current
    time is at or after its end, and [Past] returns false. *)
Lemma Past_false_at_end :
  let b := NewTimespanBucket (T:=Reminder) 2 4 in
  endTime b <= frozen 4 0%nat /\ Past b (frozen 4) 0%nat = Some (false, 1%nat).
Proof. split; [simpl; unfold frozen; lia | reflexivity]. Qed.

(** C9, counterexample.  [NewScheduler] with [numBlocks = 0] returns a
    scheduler; the failure comes with the first inspection of it. *)
Lemma NewScheduler_zero_blocks_returns :
  run (NewScheduler (T:=Reminder) 2 0) (frozen 0) =
    Some {| buckets := []; blockSize := 2; numBlocks := 0 |} /\
  run emptyScenario (frozen 0) = None.
Proof. split; reflexivity. Qed.

(** C9, at a negative number of blocks. *)
Lemma NewScheduler_nonpositive_witness :
  NewScheduler (T:=Reminder) 2 (-1) (frozen 0) 0%nat =
    Some ({| buckets := []; blockSize := 2; numBlocks := -1 |}, 0%nat) /\
  Due {| buckets := []; blockSize := 2; numBlocks := -1 |} (frozen 7) 0%nat
    = None.
Proof.
  destruct (NewScheduler_nonpositive (T:=Reminder) (frozen 0) 2 (-1) 0%nat)
    as [Hnew Hops]; [lia|].
  split; [exact Hnew|].
  destruct (Hops (frozen 7) 0%nat itemA) as (_ & Hdue & _). exact Hdue.
Defined.

(** C1, the code at a failing input.  The wheel is built at time 0; A (due
    at 3) goes to the window [2, 4) and B (due at 1) to the head window
    [0, 2).  At time 5 both windows have elapsed.  After the inspection the
    new head window [4, 6) holds B twice and no window holds A. *)
Theorem salvage_loses_and_duplicates :
  exists before after,
    run salvageScenario (stepClock 5 0 5) = Some (before, after) /\
    spans before = [(0, 2); (2, 4); (4, 6); (6, 8); (8, 10)] /\
    contents before = [[itemB]; [itemA]; []; []; []] /\
    spans after = [(4, 6); (6, 8); (8, 10); (10, 12); (12, 14); (14, 16)] /\
    contents after = [[itemB; itemB]; []; []; []; []; []].
Proof. eexists _, _. repeat split. Qed.

(** C2, the code at a failing input.  A wheel built with [numBlocks = 3] has
    four windows after its first inspection, at the time of construction. *)
Theorem update_appends_one_window_too_many :
  run lengthScenario (frozen 0) = Some (3, 4%nat).
Proof. reflexivity. Qed.

(** C3, the code at a failing input.  With the clock at the time of
    construction no window has elapsed; one re-anchor leaves four windows,
    a second one in immediate succession leaves five. *)
Theorem update_twice_differs_from_once :
  exists once twice,
    run reanchorScenario (frozen 0) = Some (once, twice) /\
    spans once = [(0, 2); (2, 4); (4, 6); (6, 8)] /\
    spans twice = [(0, 2); (2, 4); (4, 6); (6, 8); (8, 10)] /\
    buckets once <> buckets twice.
Proof. eexists _, _. repeat split. discriminate. Qed.

(** C7, the code at a failing input.  When the clock advances by one
    nanosecond between the reads that [NewScheduler] makes in its loop, the
    windows it builds have gaps. *)
Theorem NewScheduler_ticking_clock_leaves_gaps :
  exists s,
    run newWheel tickingClock = Some s /\
    spans s = [(0, 2); (3, 5); (6, 8)] /\
    ~ contiguous (buckets s).
Proof.
  eexists. split; [reflexivity|]. split; [reflexivity|].
  intros Hc. specialize (Hc 0%nat _ _ eq_refl eq_refl). discriminate.
Qed.

(** C5, counterexample.  Re-anchored exactly when the head window [0, 2)
    ends, the wheel keeps that window at its head: its end is not in the
    future.  Re-anchored at time 100, when every window has elapsed, the
    wheel keeps the elapsed window [0, 2) at its head as well. *)
Lemma update_head_end_not_in_future :
  (exists s h rest,
      run headScenario (stepClock 3 0 2) = Some s /\
      buckets s = h :: rest /\ span h = (0, 2) /\ ~ 2 < endTime h) /\
  (exists s h rest,
      run headScenario (stepClock 3 0 100) = Some s /\
      buckets s = h :: rest /\ span h = (0, 2) /\ ~ 100 < endTime h).
Proof.
  split; eexists _, _, _; (split; [reflexivity|]);
    (split; [reflexivity|]); (split; [reflexivity|]); vm_compute;
    discriminate.
Qed.

(** C5, at the wheel [wheel0] three nanoseconds after its construction: the
    window [2, 4) becomes the head. *)
Lemma update_head_not_Past_witness :
  exists s' k h rest,
    update wheel0 (frozen 3) 0%nat = Some (s', S (0 + k)) /\
    buckets s' = h :: rest /\
    Past h (frozen 3) (0 + k)%nat = Some (false, S (0 + k)) /\
    frozen 3 (0 + k)%nat <= endTime h.
Proof.
  apply (update_head_not_Past (frozen 3) wheel0 0%nat).
  exists 1%nat, (NewTimespanBucket 2 4). split; reflexivity.
Defined.

(** C10, at the wheel [wheel0] five nanoseconds after its construction: the
    windows [0, 2) and [2, 4) are dropped. *)
Lemma update_drops_only_Past_witness :
  exists s',
    update wheel0 (frozen 5) 0%nat = Some (s', 3%nat) /\
    exists k tl,
      last (buckets wheel0) = Some tl /\
      spans s' =
        span <$> (drop k (buckets wheel0)
                    ++ freshFrom (S k) (blockSize wheel0) (endTime tl)) /\
      forall i b, (i < k)%nat -> buckets wheel0 !! i = Some b ->
                  Past b (frozen 5) (0 + i)%nat = Some (true, S (0 + i)).
Proof.
  eexists. split; [vm_compute; reflexivity|].
  destruct (update_drops_only_Past (frozen 5) wheel0 0%nat _ 3%nat eq_refl)
    as (k & tl & Hlast & Hspans & Hpast & _).
  exists k, tl. split; [exact Hlast|]. split; [exact Hspans | exact Hpast].
Defined.

(** X17, at the wheel [wheel0]: A, due at 3, goes to the window [2, 4) and
    to no other one. *)
Lemma AddReminder_places_once_witness :
  wheel_ascending wheel0 /\
  exists s2,
    AddReminder itemA wheel0 (frozen 0) 0%nat = Some (s2, 1%nat) /\
    contents s2 = [[]; [itemA]; []; []].
Proof.
  assert (wheel_ascending wheel0) as Hok.
  { split; [simpl; lia|]. eexists _, _. split; [reflexivity|].
    simpl. lia. }
  split; [exact Hok|].
  destruct (AddReminder_places_once (frozen 0) wheel0 0%nat itemA Hok)
    as (s1 & n1 & h & rest & tl & s2 & Hup & _ & _ & Hadd & _).
  exists s2.
  assert (n1 = 1%nat) as -> by (vm_compute in Hup; congruence).
  split; [exact Hadd|].
  vm_compute in Hadd. injection Hadd as <-. reflexivity.
Defined.

(** C6, the code at a failing input.  The clock shows 0 at the first read of
    [NewScheduler] and 5 from the second read on, so the two windows are
    [0, 10) and [15, 25).  [AddReminder] re-anchors at 5, which appends
    [25, 35), and then stores G, due at 12, in no window, although 12 is not
    a bound of any window: it lies in the gap between the first two. *)
Theorem AddReminder_drops_item_in_gap :
  exists s,
    run gapScenario (stepClock 1 0 5) = Some s /\
    spans s = [(0, 10); (15, 25); (25, 35)] /\
    contents s = [[]; []; []] /\
    ~ onBoundary (buckets s) (DueTime itemG).
Proof.
  eexists. split; [vm_compute; reflexivity|]. split; [reflexivity|].
  split; [reflexivity|].
  intros (i & b & Hi & Hd).
  destruct i as [|[|[|i]]]; try discriminate; injection Hi as <-;
    vm_compute in Hd; destruct Hd; discriminate.
Qed.

(** C4, counterexample.  C is due at 10 and sits in the head window
    [5, 15).  Asked at time 10, when C is due, [Due] returns nothing and C
    stays in the head window.  And under a clock that rises while the head
    is inspected, of two items with the same due time 9 the first, inspected
    at 9, stays and the second, inspected at 10, is returned: no single
    current time separates what is returned from what is left. *)
Lemma Due_keeps_item_due_now :
  (exists s,
      run dueScenario (stepClock 4 5 10) = Some ([], s) /\
      contents s = [[itemC]; []; []; []; []] /\
      DueTime itemC <= stepClock 4 5 10 5%nat) /\
  (exists s,
      Due twinWheel (risingClock 8) 0%nat =
        Some (([mkReminder "second" 9], s), 3%nat) /\
      contents s = [[mkReminder "first" 9]; []; []] /\
      DueTime (mkReminder "first" 9) = DueTime (mkReminder "second" 9)).
Proof.
  split.
  - eexists. split; [reflexivity|]. split; [reflexivity|]. vm_compute.
    discriminate.
  - eexists. split; [vm_compute; reflexivity|]. split; reflexivity.
Qed.

(** C4, at the head window with items due at t-2, t-1 and t+5 for t = 10:
    the first two are returned in order, the third stays. *)
Lemma Due_returns_strictly_overdue_witness :
  exists s',
    Due dueWheel (frozen 10) 0%nat =
      Some ([mkReminder "t-2" 8; mkReminder "t-1" 9], s', 4%nat) /\
    contents s' = [[mkReminder "t+5" 15]; []; []; []].
Proof.
  eexists. split.
  - rewrite (proj2 (Due_returns_strictly_overdue (frozen 10) dueWheel 0%nat
                      _ 1%nat _ _ eq_refl eq_refl)
               10 (fun _ _ => eq_refl)).
    reflexivity.
  - reflexivity.
Defined.

(** * The further properties at concrete inputs *)

Lemma risingClock_monotone t0 : monotone (risingClock t0).
Proof. intros n m Hnm. unfold risingClock. lia. Qed.

(** X2, at [busyWheel] five nanoseconds after its start: the windows
    [0, 2) and [2, 4) are dropped, both non-empty, so the new head [4, 6)
    receives two copies of the old head's B. *)
Lemma update_re_anchors_at_first_live_window_witness :
  update busyWheel (frozen 5) 0%nat =
  Some (setBuckets busyWheel
          [ {| startTime := 4; endTime := 6; elements := [itemB; itemB] |};
            NewTimespanBucket 6 8; NewTimespanBucket 8 10;
            NewTimespanBucket 10 12 ],
        3%nat).
Proof.
  rewrite (update_re_anchors_at_first_live_window (frozen 5) busyWheel 0%nat
             2%nat (NewTimespanBucket 4 6)
             {| startTime := 0; endTime := 2; elements := [itemB] |}
             (NewTimespanBucket 4 6)).
  - reflexivity.
  - intros [|[|i]] b Hi Hb; [| |lia]; injection Hb as <-; vm_compute;
      reflexivity.
  - reflexivity.
  - vm_compute. discriminate.
  - reflexivity.
  - reflexivity.
Defined.

(** X3, at [busyWheel] three nanoseconds after its start: only the head has
    elapsed and its B follows A in the new head [2, 4). *)
Lemma update_salvages_single_elapsed_head_witness :
  update busyWheel (frozen 3) 0%nat =
  Some (setBuckets busyWheel
          [ {| startTime := 2; endTime := 4; elements := [itemA; itemB] |};
            NewTimespanBucket 4 6; NewTimespanBucket 6 8;
            NewTimespanBucket 8 10 ],
        2%nat).
Proof.
  rewrite (update_salvages_single_elapsed_head (frozen 3) busyWheel 0%nat
             {| startTime := 0; endTime := 2; elements := [itemB] |}
             {| startTime := 2; endTime := 4; elements := [itemA] |}
             [NewTimespanBucket 4 6] (NewTimespanBucket 4 6)).
  - reflexivity.
  - reflexivity.
  - vm_compute. reflexivity.
  - vm_compute. discriminate.
  - reflexivity.
Defined.

(** X4, at [busyWheel] a hundred nanoseconds after its start. *)
Lemma update_keeps_wheel_when_all_elapsed_witness :
  update busyWheel (frozen 100) 0%nat =
  Some (setBuckets busyWheel (buckets busyWheel ++ [NewTimespanBucket 6 8]),
        3%nat).
Proof.
  rewrite (update_keeps_wheel_when_all_elapsed (frozen 100) busyWheel 0%nat
             (NewTimespanBucket 4 6)).
  - reflexivity.
  - intros [|[|[|i]]] b Hb; try discriminate; injection Hb as <-; vm_compute;
      reflexivity.
  - reflexivity.
Defined.

(** X5, at [twinWheel] with a clock that rises from 8: the two items are
    due at 9; the first is inspected at 9 and stays, the second is inspected
    at 10 and is returned. *)
Lemma Due_under_any_clock_witness :
  exists s',
    Due twinWheel (risingClock 8) 0%nat =
      Some (([mkReminder "second" 9], s'), 3%nat) /\
    contents s' = [[mkReminder "first" 9]; []; []].
Proof.
  eexists. split.
  - rewrite (Due_under_any_clock (risingClock 8) twinWheel 0%nat _ 1%nat _ _
               eq_refl eq_refl).
    reflexivity.
  - reflexivity.
Defined.

(** X6, at the same input. *)
Lemma Due_partitions_head_witness :
  exists items kept,
    items ++ kept ≡ₚ [mkReminder "first" 9; mkReminder "second" 9] /\
    items `sublist_of` [mkReminder "first" 9; mkReminder "second" 9].
Proof.
  edestruct (Due_partitions_head (risingClock 8) twinWheel 0%nat)
    as (s1 & n1 & h & rest & kept & Hup & Hbs & _ & Hperm & Hsub & _);
    [vm_compute; reflexivity|].
  vm_compute in Hup. injection Hup as <- _.
  injection Hbs as <- _. cbn [elements] in Hperm, Hsub.
  eexists _, kept. split; [exact Hperm | exact Hsub].
Defined.

(** X7, at [wheel0] with four calls and a rising clock. *)
Lemma public_calls_never_panic_witness :
  exists s' n', performAll someCalls wheel0 (risingClock 0) 0%nat = Some (s', n').
Proof.
  destruct (public_calls_never_panic (risingClock 0) wheel0 0%nat someCalls)
    as (s' & n' & Hrun & _); [discriminate|].
  exists s', n'. exact Hrun.
Defined.

(** X8, at [wheel0] with four calls: seven windows, [numBlocks] still 3. *)
Lemma wheel_grows_by_one_window_per_call_witness :
  exists s' n',
    performAll someCalls wheel0 (frozen 0) 0%nat = Some (s', n') /\
    length (buckets s') = 7%nat /\ numBlocks s' = 3.
Proof.
  eexists _, _. split; [vm_compute; reflexivity|].
  edestruct (wheel_grows_by_one_window_per_call (frozen 0) wheel0 0%nat
               someCalls) as (Hlen & Hnb & _); [vm_compute; reflexivity|].
  split; [exact Hlen | exact Hnb].
Defined.

(** X9, for three blocks of two nanoseconds, a rising clock and four calls:
    the last window is [12, 14). *)
Lemma windows_are_one_block_wide_witness :
  exists s' n',
    bind (NewScheduler 2 3) (performAll someCalls) (risingClock 0) 0%nat =
      Some (s', n') /\
    forall i b, buckets s' !! i = Some b -> endTime b = startTime b + 2.
Proof.
  eexists _, _. split; [vm_compute; reflexivity|].
  edestruct (windows_are_one_block_wide (risingClock 0) 2 3 0%nat someCalls)
    as (_ & Hwide); [vm_compute; reflexivity|].
  exact Hwide.
Defined.

(** X10, at the same input: the windows built under the rising clock have
    gaps and stay in ascending order. *)
Lemma windows_stay_ascending_witness :
  exists s' n',
    bind (NewScheduler 2 3) (performAll someCalls) (risingClock 0) 0%nat =
      Some (s', n') /\
    forall i b, buckets s' !! i = Some b -> startTime b < endTime b.
Proof.
  eexists _, _. split; [vm_compute; reflexivity|].
  edestruct (windows_stay_ascending (risingClock 0) 2 3 0%nat someCalls)
    as (Hproper & _);
    [apply risingClock_monotone | lia | lia
    | intros j Hj; unfold fits64; lia | vm_compute; reflexivity|].
  exact Hproper.
Defined.

(** X11, for a clock that shows 0 during construction and 5 afterwards. *)
Lemma windows_stay_contiguous_witness :
  exists s' n',
    bind (NewScheduler 2 3) (performAll someCalls) (stepClock 3 0 5) 0%nat =
      Some (s', n') /\
    contiguous (buckets s').
Proof.
  eexists _, _. split; [vm_compute; reflexivity|].
  eapply windows_stay_contiguous with (clk := stepClock 3 0 5) (bsz := 2)
    (nb := 3) (n := 0%nat) (ops := someCalls) (t := 0).
  - intros [|[|[|j]]] Hj; [reflexivity | reflexivity | reflexivity|].
    simpl in Hj. lia.
  - intros j Hj. unfold fits64. lia.
  - vm_compute. reflexivity.
Defined.

(** X12, at the end of the window [2, 4). *)
Lemma window_predicates_partition_witness :
  let b := NewTimespanBucket (T:=Reminder) 2 4 in
  IsAfter b 4 = false /\ Contains b 4 = false /\ IsBefore b 4 = false.
Proof.
  destruct (window_predicates_partition (NewTimespanBucket (T:=Reminder) 2 4)
              4 ltac:(simpl; lia))
    as [(Hd & _)|[(Hd & _)|[(Hd & _)|[(_ & Hres)|(Hd & _)]]]];
    simpl in *; try lia.
  exact Hres.
Defined.

(** X13, at [dueWheel] with the clock at 10: the first [Due] returns the
    items due at 8 and 9, the second one nothing. *)
Lemma Due_again_returns_nothing_witness :
  exists items s2 n2 s3 n3,
    Due dueWheel (frozen 10) 0%nat = Some ((items, s2), n2) /\
    length items = 2%nat /\
    Due s2 (frozen 10) n2 = Some (([], s3), n3).
Proof.
  eexists _, _, _. 
  edestruct (Due_again_returns_nothing 10 dueWheel 0%nat) as (s3 & n3 & Hdue & _).
  - exists 0%nat. eexists. split; [reflexivity|]. simpl. lia.
  - vm_compute. reflexivity.
  - exists s3, n3. split; [reflexivity|]. split; [reflexivity | exact Hdue].
Defined.

(** X14, at [wheel0] with the clock at 1: a reminder due at -100 is returned
    at once. *)
Lemma overdue_reminder_is_due_at_once_witness :
  exists s2 s3 n3,
    AddReminder (mkReminder "late" (-100)) wheel0 (frozen 1) 0%nat =
      Some (s2, 1%nat) /\
    Due s2 (frozen 1) 1%nat = Some (([mkReminder "late" (-100)], s3), n3).
Proof.
  edestruct (overdue_reminder_is_due_at_once 1 wheel0 0%nat
               (setBuckets wheel0 (buckets wheel0 ++ [NewTimespanBucket 6 8]))
               1%nat (NewTimespanBucket 0 2)
               [NewTimespanBucket 2 4; NewTimespanBucket 4 6;
                NewTimespanBucket 6 8]
               (mkReminder "late" (-100)))
    as (s2 & s3 & n3 & Hadd & _ & Hdue).
  - vm_compute. reflexivity.
  - reflexivity.
  - simpl. lia.
  - simpl. lia.
  - simpl. lia.
  - exists s2, s3, n3. split; [exact Hadd | exact Hdue].
Defined.

(** X15, at [wheel0] with four calls: whatever the wheel holds at the end is
    A or B. *)
Lemma public_calls_never_invent_items_witness :
  exists s' n',
    performAll someCalls wheel0 (frozen 0) 0%nat = Some (s', n') /\
    forall e, e ∈ allItems s' -> e ∈ [itemA; itemB].
Proof.
  eexists _, _. split; [vm_compute; reflexivity|].
  intros e He.
  edestruct (public_calls_never_invent_items (frozen 0) wheel0 0%nat someCalls)
    as [Hold|Hnew]; [vm_compute; reflexivity | exact He | |].
  - inversion Hold.
  - exact Hnew.
Defined.

(** X16, at [busyWheel] with the clock at 4: the head has elapsed, A waits
    in the window [2, 4), which has not, and is due at 3. *)
Lemma Due_returns_due_item_of_first_live_window_witness :
  exists items s' n',
    Due busyWheel (frozen 4) 0%nat = Some ((items, s'), n') /\
    itemA ∈ items.
Proof.
  apply (Due_returns_due_item_of_first_live_window 4 busyWheel 0%nat 1%nat
           {| startTime := 2; endTime := 4; elements := [itemA] |} itemA).
  - intros [|i] b Hi Hb; [|lia]. injection Hb as <-. simpl. lia.
  - reflexivity.
  - simpl. lia.
  - apply list_elem_of_singleton. reflexivity.
  - simpl. lia.
Defined.
